(** * BasicLerts: the discrete-event dispatch simulation of [sim3.py] / [sim4.py]

    A shallow embedding of the simulation engine ([Request], [Lert],
    [MetroSimulation]) together with the part of CPython's [heapq] it
    relies on, and the properties of the engine's specification checked
    against it.

    Conventions of the embedding:
    - Python floats are idealised as rationals ([Q]); comparisons are the
      boolean ones of [QArith], equality of numbers is [Qeq].  The one
      numeric scenario of the specification is evaluated in binary64 as
      well ([scenario_A_binary64]).
    - A Python exception is an explicit [Raise] result; a method that
      mutates [self] returns the new object.
    - Objects that are shared by reference ([Request]s sit both in
      [self.requests] and in the event tuples) are referred to by their
      position in the append-only list [self.requests].
    - The module-level variables ([REQUEST_RATE], [LERT_SPEED], ...) are a
      record [globals] threaded through every method that reads or writes
      them.
    - The pseudo-random draws of [numpy.random] / [random] are explicit
      arguments ([draws]).
    - [print] output is returned as a value of type [output]. *)

From Stdlib Require Import QArith Lqa Lia PrimFloat.
From stdpp Require Import base option list.

(** ** Exceptions and results *)

Inductive exn : Type :=
| TypeError
| ZeroDivisionError
| IndexError
| ValueError
| AttributeError.

Inductive result (A : Type) : Type :=
| Ok (a : A)
| Raise (e : exn).

Arguments Ok {A} a.
Arguments Raise {A} e.

#[global] Instance result_ret : MRet result := @Ok.

#[global] Instance result_bind : MBind result :=
  λ A B f m, match m with Ok a => f a | Raise e => Raise e end.

(** [l[i]] on a Python list *)
Definition getitem {A : Type} (l : list A) (i : nat) : result A :=
  match l !! i with
  | Some x => Ok x
  | None => Raise IndexError
  end.

(** [l.pop()]: removes and returns the last item *)
Definition list_pop {A : Type} (l : list A) : result (A * list A) :=
  match last l with
  | Some x => Ok (x, take (length l - 1) l)
  | None => Raise IndexError
  end.

(** Float division [a / b] *)
Definition pydiv (a b : Q) : result Q :=
  if Qeq_bool b 0 then Raise ZeroDivisionError else Ok (a / b)%Q.

Definition Qlt_bool (a b : Q) : bool := negb (Qle_bool b a).

(** ** The [heapq] module (CPython, [Lib/heapq.py]) *)

Module heapq.
Section heapq.
Context {A : Type} (lt : A → A → result bool).

(** The [while pos > startpos] loop of [_siftdown]; [pos] decreases at
    each turn, so the loop runs at most [pos] times, which is the
    recursion bound [n] ([siftdown_loop_bound]: a larger bound changes
    nothing). *)
Fixpoint siftdown_loop (n : nat) (heap : list A) (startpos pos : nat)
    (newitem : A) : result (list A * nat) :=
  match n with
  | O => Ok (heap, pos)
  | S n =>
      if (startpos <? pos)%nat then
        let parentpos := Nat.shiftr (pos - 1) 1 in
        parent ← getitem heap parentpos;
        b ← lt newitem parent;
        if b : bool then
          siftdown_loop n (<[pos := parent]> heap) startpos parentpos newitem
        else Ok (heap, pos)
      else Ok (heap, pos)
  end.

Definition _siftdown (heap : list A) (startpos pos : nat) : result (list A) :=
  newitem ← getitem heap pos;
  '(heap, pos) ← siftdown_loop pos heap startpos pos newitem;
  Ok (<[pos := newitem]> heap).

(** The [while childpos < endpos] loop of [_siftup]; [pos] grows at each
    turn, so [endpos] turns are enough ([siftup_loop_bound]). *)
Fixpoint siftup_loop (n : nat) (heap : list A) (endpos pos : nat)
    : result (list A * nat) :=
  match n with
  | O => Ok (heap, pos)
  | S n =>
      let childpos := (2 * pos + 1)%nat in
      if (childpos <? endpos)%nat then
        let rightpos := (childpos + 1)%nat in
        childpos ←
          (if (rightpos <? endpos)%nat then
             l ← getitem heap childpos;
             r ← getitem heap rightpos;
             b ← lt l r;
             Ok (if negb b then rightpos else childpos)
           else Ok childpos);
        c ← getitem heap childpos;
        siftup_loop n (<[pos := c]> heap) endpos childpos
      else Ok (heap, pos)
  end.

Definition _siftup (heap : list A) (pos : nat) : result (list A) :=
  let endpos := length heap in
  let startpos := pos in
  newitem ← getitem heap pos;
  '(heap, pos) ← siftup_loop endpos heap endpos pos;
  _siftdown (<[pos := newitem]> heap) startpos pos.

Definition heappush (heap : list A) (item : A) : result (list A) :=
  let heap := heap ++ [item] in
  _siftdown heap 0 (length heap - 1).

Definition heappop (heap : list A) : result (A * list A) :=
  '(lastelt, heap) ← list_pop heap;
  match heap with
  | [] => Ok (lastelt, heap)
  | _ :: _ =>
      returnitem ← getitem heap 0;
      heap ← _siftup (<[0%nat := lastelt]> heap) 0;
      Ok (returnitem, heap)
  end.

End heapq.
End heapq.

(** ** Events *)

(** The two strings that tag an event; as Python strings
    ['arrival' < 'complete']. *)
Inductive event_type : Type := arrival | complete.

Definition event_type_eqb (a b : event_type) : bool :=
  match a, b with
  | arrival, arrival | complete, complete => true
  | _, _ => false
  end.

Definition event_type_ltb (a b : event_type) : bool :=
  match a, b with
  | arrival, complete => true
  | _, _ => false
  end.

(** An event is the tuple [(event_time, event_type, request)]; the third
    component is [None] or a reference to a [Request]. *)
Definition event : Type := Q * event_type * option nat.

Definition ev_time (e : event) : Q := e.1.1.
Definition ev_type (e : event) : event_type := e.1.2.
Definition ev_request (e : event) : option nat := e.2.

(** [a < b] on event tuples: the first components that differ decide.
    [Request] defines no ordering, and neither does [None]: comparing two
    different payloads raises [TypeError]. *)
Definition event_lt (a b : event) : result bool :=
  if negb (Qeq_bool (ev_time a) (ev_time b)) then
    Ok (Qlt_bool (ev_time a) (ev_time b))
  else if negb (event_type_eqb (ev_type a) (ev_type b)) then
    Ok (event_type_ltb (ev_type a) (ev_type b))
  else
    match ev_request a, ev_request b with
    | None, None => Ok false
    | Some i, Some j => if (i =? j)%nat then Ok false else Raise TypeError
    | _, _ => Raise TypeError
    end.

Definition heappush : list event → event → result (list event) :=
  heapq.heappush event_lt.

Definition heappop : list event → result (event * list event) :=
  heapq.heappop event_lt.

(** ** Data classes *)

Inductive trip_direction : Type := to_station | from_station.

Record Request : Type := mkRequest {
  time : Q;
  distance : Q;
  direction : trip_direction;
  assigned : bool;
  wait_start : Q;
  wait_end : option Q;
  travel_time : option Q
}.

(** [Request(time, distance, direction)] *)
Definition Request_init (t d : Q) (dir : trip_direction) : Request :=
  {| time := t; distance := d; direction := dir; assigned := false;
     wait_start := t; wait_end := None; travel_time := None |}.

Definition set_assigned (b : bool) (r : Request) : Request :=
  {| time := time r; distance := distance r; direction := direction r;
     assigned := b; wait_start := wait_start r; wait_end := wait_end r;
     travel_time := travel_time r |}.

Definition set_service (we trav : Q) (r : Request) : Request :=
  {| time := time r; distance := distance r; direction := direction r;
     assigned := assigned r; wait_start := wait_start r; wait_end := Some we;
     travel_time := Some trav |}.

Inductive lert_status : Type := idle | busy.

Record Lert : Type := mkLert {
  id : nat;
  speed : Q;
  status : lert_status;
  next_free_time : Q;
  total_trips : nat
}.

(** [Lert(id, speed)] *)
Definition Lert_init (i : nat) (v : Q) : Lert :=
  {| id := i; speed := v; status := idle; next_free_time := 0;
     total_trips := 0 |}.

Definition set_status (st : lert_status) (l : Lert) : Lert :=
  {| id := id l; speed := speed l; status := st;
     next_free_time := next_free_time l; total_trips := total_trips l |}.

Definition set_speed_of (v : Q) (l : Lert) : Lert :=
  {| id := id l; speed := v; status := status l;
     next_free_time := next_free_time l; total_trips := total_trips l |}.

Definition set_trip (nft : Q) (l : Lert) : Lert :=
  {| id := id l; speed := speed l; status := status l;
     next_free_time := nft; total_trips := S (total_trips l) |}.

(** [Lert.assign] of [sim3.py]: returns the updated vehicle, the updated
    request and [total_travel_time]. *)
Definition assign (self : Lert) (current_time : Q) (request : Request)
    : result (Lert * Request * Q) :=
  let self := set_status busy self in
  let pickup_distance := distance request in
  travel_to_passenger_time ← pydiv pickup_distance (speed self);
  travel_with_passenger_time ← pydiv pickup_distance (speed self);
  let total_travel_time :=
    (travel_to_passenger_time + travel_with_passenger_time)%Q in
  let self := set_trip (current_time + total_travel_time)%Q self in
  let request := set_service current_time total_travel_time request in
  Ok (self, request, total_travel_time).

(** ** Module-level configuration *)

Record globals : Type := mkGlobals {
  METRO_RADIUS : Q;
  REQUEST_RATE : Q;
  INITIAL_LERT_COUNT : nat;
  LERT_SPEED_KMH : Q;
  LERT_SPEED : Q;
  POISSON_REQUESTS : bool
}.

(** The values the module is loaded with *)
Definition module_globals : globals :=
  {| METRO_RADIUS := 3;
     REQUEST_RATE := 100 / 60;
     INITIAL_LERT_COUNT := 25;
     LERT_SPEED_KMH := 25;
     LERT_SPEED := 25 / 3600;
     POISSON_REQUESTS := true |}.

Definition set_REQUEST_RATE (r : Q) (g : globals) : globals :=
  {| METRO_RADIUS := METRO_RADIUS g; REQUEST_RATE := r;
     INITIAL_LERT_COUNT := INITIAL_LERT_COUNT g;
     LERT_SPEED_KMH := LERT_SPEED_KMH g; LERT_SPEED := LERT_SPEED g;
     POISSON_REQUESTS := POISSON_REQUESTS g |}.

Definition set_LERT_SPEED (kmh v : Q) (g : globals) : globals :=
  {| METRO_RADIUS := METRO_RADIUS g; REQUEST_RATE := REQUEST_RATE g;
     INITIAL_LERT_COUNT := INITIAL_LERT_COUNT g;
     LERT_SPEED_KMH := kmh; LERT_SPEED := v;
     POISSON_REQUESTS := POISSON_REQUESTS g |}.

(** ** Random draws *)

(** What one call of [run_step] (or of the constructor) takes from the
    random generators: the [random.choice], the unit sample behind
    [np.random.uniform] (in [[0, 1)]) and the unit sample behind
    [np.random.exponential] (non-negative). *)
Record draws : Type := mkDraws {
  choice : trip_direction;
  uniform : Q;
  exponential : Q
}.

(** [np.random.uniform(low, high)] is [low + (high - low) * u]. *)
Definition np_random_uniform (low high u : Q) : Q :=
  (low + (high - low) * u)%Q.

(** [np.random.exponential(scale)] is [scale] times a standard
    exponential sample; a negative [scale] raises [ValueError]. *)
Definition np_random_exponential (scale e : Q) : result Q :=
  if Qlt_bool scale 0 then Raise ValueError else Ok (scale * e)%Q.

(** ** The simulation object *)

Record MetroSimulation : Type := mkSim {
  current_time : Q;
  event_queue : list event;
  requests : list Request;
  completed_requests : nat;
  total_wait_time : Q;
  total_travel_time : Q;
  lerts : list Lert
}.

Definition set_current_time (t : Q) (s : MetroSimulation) : MetroSimulation :=
  {| current_time := t; event_queue := event_queue s;
     requests := requests s; completed_requests := completed_requests s;
     total_wait_time := total_wait_time s;
     total_travel_time := total_travel_time s; lerts := lerts s |}.

Definition set_event_queue (q : list event) (s : MetroSimulation)
    : MetroSimulation :=
  {| current_time := current_time s; event_queue := q;
     requests := requests s; completed_requests := completed_requests s;
     total_wait_time := total_wait_time s;
     total_travel_time := total_travel_time s; lerts := lerts s |}.

Definition set_requests (rs : list Request) (s : MetroSimulation)
    : MetroSimulation :=
  {| current_time := current_time s; event_queue := event_queue s;
     requests := rs; completed_requests := completed_requests s;
     total_wait_time := total_wait_time s;
     total_travel_time := total_travel_time s; lerts := lerts s |}.

Definition set_lerts (ls : list Lert) (s : MetroSimulation)
    : MetroSimulation :=
  {| current_time := current_time s; event_queue := event_queue s;
     requests := requests s; completed_requests := completed_requests s;
     total_wait_time := total_wait_time s;
     total_travel_time := total_travel_time s; lerts := ls |}.

Definition set_stats (n : nat) (w t : Q) (s : MetroSimulation)
    : MetroSimulation :=
  {| current_time := current_time s; event_queue := event_queue s;
     requests := requests s; completed_requests := n;
     total_wait_time := w; total_travel_time := t; lerts := lerts s |}.

Definition schedule_next_request_arrival (g : globals) (e : Q)
    (self : MetroSimulation) (now : Q) : result MetroSimulation :=
  gap ←
    (if POISSON_REQUESTS g then
       let rate := REQUEST_RATE g in
       mean_inter_arrival ← pydiv 1 rate;
       np_random_exponential mean_inter_arrival e
     else pydiv 1 (REQUEST_RATE g));
  let next_arrival_time := (now + gap)%Q in
  q ← heappush (event_queue self) (next_arrival_time, arrival, None);
  Ok (set_event_queue q self).

(** [MetroSimulation()] *)
Definition MetroSimulation_init (g : globals) (e : Q)
    : result MetroSimulation :=
  let self :=
    {| current_time := 0; event_queue := []; requests := [];
       completed_requests := 0; total_wait_time := 0;
       total_travel_time := 0;
       lerts := (λ i, Lert_init i (LERT_SPEED g))
                  <$> seq 0 (INITIAL_LERT_COUNT g) |} in
  schedule_next_request_arrival g e self (current_time self).

Definition handle_arrival_event (g : globals) (d : draws)
    (self : MetroSimulation) : result MetroSimulation :=
  let direction := choice d in
  let distance := np_random_uniform 0 (METRO_RADIUS g) (uniform d) in
  let req := Request_init (current_time self) distance direction in
  let self := set_requests (requests self ++ [req]) self in
  schedule_next_request_arrival g (exponential d) self (current_time self).

(** A vehicle is free when [next_free_time <= current_time]. *)
Definition is_free (now : Q) (l : Lert) : bool :=
  Qle_bool (next_free_time l) now.

(** The first free vehicle (with its position in [self.lerts]), if any. *)
Definition find_available_lert (self : MetroSimulation)
    : option (nat * Lert) :=
  list_find (λ l, is_free (current_time self) l) (lerts self).

(** [list.sort(key=...)] is stable: an item is put in front of the first
    item whose key is not smaller. *)
Fixpoint insert_by_key (key : nat → Q) (x : nat) (l : list nat) : list nat :=
  match l with
  | [] => [x]
  | y :: l' =>
      if Qlt_bool (key y) (key x) then y :: insert_by_key key x l'
      else x :: l
  end.

Definition sort_by_key (key : nat → Q) (l : list nat) : list nat :=
  foldr (insert_by_key key) [] l.

Definition is_unassigned (self : MetroSimulation) (i : nat) : bool :=
  match requests self !! i with
  | Some r => negb (assigned r)
  | None => false
  end.

(** [[r for r in self.requests if not r.assigned]], as references *)
Definition unassigned_requests (self : MetroSimulation) : list nat :=
  filter (λ i, is_unassigned self i) (seq 0 (length (requests self))).

Definition request_time (self : MetroSimulation) (i : nat) : Q :=
  match requests self !! i with
  | Some r => time r
  | None => 0
  end.

(** The body of the [for] loop of [handle_requests] when a vehicle was
    found. *)
Definition dispatch (asg : Lert → Q → Request → result (Lert * Request * Q))
    (self : MetroSimulation) (request : nat) (li : nat) (lert : Lert)
    : result MetroSimulation :=
  req ← getitem (requests self) request;
  let req := set_assigned true req in
  '(lert, req, travel_time) ← asg lert (current_time self) req;
  let self := set_lerts (<[li := lert]> (lerts self)) self in
  let self := set_requests (<[request := req]> (requests self)) self in
  q ← heappush (event_queue self)
        ((current_time self + travel_time)%Q, complete, Some request);
  Ok (set_event_queue q self).

(** The [for] loop of [handle_requests] in [sim3.py], which leaves at the
    first request without a free vehicle. *)
Fixpoint handle_requests_loop (unassigned : list nat)
    (self : MetroSimulation) : result MetroSimulation :=
  match unassigned with
  | [] => Ok self
  | request :: rest =>
      match find_available_lert self with
      | Some (li, lert) =>
          self ← dispatch assign self request li lert;
          handle_requests_loop rest self
      | None => Ok self
      end
  end.

Definition handle_requests (self : MetroSimulation)
    : result MetroSimulation :=
  let unassigned := unassigned_requests self in
  let unassigned := sort_by_key (request_time self) unassigned in
  handle_requests_loop unassigned self.

Definition handle_complete_event (self : MetroSimulation)
    (request : option nat) : result MetroSimulation :=
  match request with
  | None => Raise AttributeError
  | Some i =>
      r ← getitem (requests self) i;
      match wait_end r, travel_time r with
      | Some we, Some trav =>
          let wait_time := (we - wait_start r)%Q in
          Ok (set_stats (completed_requests self + 1)
                        (total_wait_time self + wait_time)%Q
                        (total_travel_time self + trav)%Q self)
      | _, _ => Raise TypeError
      end
  end.

Definition run_step (g : globals) (d : draws) (self : MetroSimulation)
    : result MetroSimulation :=
  match event_queue self with
  | [] => Ok self
  | _ :: _ =>
      '(ev, q) ← heappop (event_queue self);
      let '(event_time, event_type, request) := ev in
      let self := set_event_queue q self in
      let self := set_current_time event_time self in
      self ←
        match event_type with
        | arrival => handle_arrival_event g d self
        | complete => handle_complete_event self request
        end;
      handle_requests self
  end.

(** [run_until]: the [while] loop takes one more step as long as the
    queue is not empty and [current_time < end_time].  The random samples
    of the steps are the list [ds]; the result is [None] when the loop is
    still running after as many steps as there are samples. *)
Fixpoint run_until (ds : list draws) (g : globals) (self : MetroSimulation)
    (end_time : Q) : result (option MetroSimulation) :=
  if negb (bool_decide (event_queue self = []))
     && Qlt_bool (current_time self) end_time then
    match ds with
    | [] => Ok None
    | d :: ds =>
        self ← run_step g d self;
        run_until ds g self end_time
    end
  else Ok (Some self).

(** The dictionary returned by [get_stats] *)
Record stats : Type := mkStats {
  stats_time : Q;
  stats_completed_requests : nat;
  avg_wait_time : Q;
  avg_travel_time : Q;
  queue_length : nat
}.

(** A float divided by an [int] *)
Definition pydiv_int (a : Q) (n : nat) : result Q :=
  pydiv a (inject_Z (Z.of_nat n)).

Definition get_stats (self : MetroSimulation) : result stats :=
  avg_wait ←
    (if (0 <? completed_requests self)%nat
     then pydiv_int (total_wait_time self) (completed_requests self)
     else Ok 0%Q);
  avg_travel ←
    (if (0 <? completed_requests self)%nat
     then pydiv_int (total_travel_time self) (completed_requests self)
     else Ok 0%Q);
  let queue_length :=
    sum_list ((λ r, if negb (assigned r) then 1 else 0) <$> requests self) in
  Ok {| stats_time := current_time self;
        stats_completed_requests := completed_requests self;
        avg_wait_time := avg_wait;
        avg_travel_time := avg_travel;
        queue_length := queue_length |}.

(** ** The control methods *)

(** What a control method prints *)
Inductive output : Type :=
| Added (new_id : nat)
| Removed (lert_id : nat)
| NoIdleLert
| RateSet (per_minute : Q)
| SpeedSet (kmh : Q).

Definition add_lert (self : MetroSimulation)
    : result (MetroSimulation * output) :=
  let new_id := length (lerts self) in
  first ← getitem (lerts self) 0;
  let l := Lert_init new_id (speed first) in
  Ok (set_lerts (lerts self ++ [l]) self, Added new_id).

Definition is_free_at (self : MetroSimulation) (i : nat) : bool :=
  match lerts self !! i with
  | Some l => is_free (current_time self) l
  | None => false
  end.

(** [idle_lerts], as positions in [self.lerts] *)
Definition idle_lerts (self : MetroSimulation) : list nat :=
  filter (λ i, is_free_at self i) (seq 0 (length (lerts self))).

(** [self.lerts.remove(lert_to_remove)] takes out the object itself:
    [Lert] has no [__eq__], so equality is identity. *)
Definition remove_lert (self : MetroSimulation) : MetroSimulation * output :=
  match idle_lerts self with
  | lert_to_remove :: _ =>
      match lerts self !! lert_to_remove with
      | Some l =>
          (set_lerts (delete lert_to_remove (lerts self)) self,
           Removed (id l))
      | None => (self, NoIdleLert)
      end
  | [] => (self, NoIdleLert)
  end.

Definition set_request_rate (g : globals) (new_rate_per_minute : Q)
    : globals * output :=
  (set_REQUEST_RATE (new_rate_per_minute / 60) g,
   RateSet new_rate_per_minute).

Definition set_speed (g : globals) (self : MetroSimulation)
    (new_speed_kmh : Q) : globals * MetroSimulation * output :=
  let g := set_LERT_SPEED new_speed_kmh (new_speed_kmh / 3600) g in
  (g, set_lerts (set_speed_of (LERT_SPEED g) <$> lerts self) self,
   SpeedSet new_speed_kmh).

(** ** [sim4.py] *)

Module sim4.

(** [Lert.assign] of [sim4.py]; it does not touch [status]. *)
Definition assign (self : Lert) (current_time : Q) (request : Request)
    : result (Lert * Request * Q) :=
  let pickup_distance := distance request in
  travel_to_passenger_time ← pydiv pickup_distance (speed self);
  travel_with_passenger_time ← pydiv pickup_distance (speed self);
  let total_travel_time :=
    (travel_to_passenger_time + travel_with_passenger_time)%Q in
  let self := set_trip (current_time + total_travel_time)%Q self in
  let request := set_service current_time total_travel_time request in
  Ok (self, request, total_travel_time).

(** The [for] loop of [handle_requests] in [sim4.py]: no [break]. *)
Fixpoint handle_requests_loop (unassigned : list nat)
    (self : MetroSimulation) : result MetroSimulation :=
  match unassigned with
  | [] => Ok self
  | request :: rest =>
      match find_available_lert self with
      | Some (li, lert) =>
          self ← dispatch assign self request li lert;
          handle_requests_loop rest self
      | None => handle_requests_loop rest self
      end
  end.

Definition handle_requests (self : MetroSimulation)
    : result MetroSimulation :=
  let unassigned := unassigned_requests self in
  let unassigned := sort_by_key (request_time self) unassigned in
  handle_requests_loop unassigned self.

(** [run_step] of [sim4.py]: the text of [sim3.py]'s, with this file's
    [handle_requests]. *)
Definition run_step (g : globals) (d : draws) (self : MetroSimulation)
    : result MetroSimulation :=
  match event_queue self with
  | [] => Ok self
  | _ :: _ =>
      '(ev, q) ← heappop (event_queue self);
      let '(event_time, event_type, request) := ev in
      let self := set_event_queue q self in
      let self := set_current_time event_time self in
      self ←
        match event_type with
        | arrival => handle_arrival_event g d self
        | complete => handle_complete_event self request
        end;
      handle_requests self
  end.

Fixpoint run_until (ds : list draws) (g : globals) (self : MetroSimulation)
    (end_time : Q) : result (option MetroSimulation) :=
  if negb (bool_decide (event_queue self = []))
     && Qlt_bool (current_time self) end_time then
    match ds with
    | [] => Ok None
    | d :: ds =>
        self ← run_step g d self;
        run_until ds g self end_time
    end
  else Ok (Some self).

(** [MetroSimulationGUI.add_lert]: the new vehicle gets the speed of the
    module, [LERT_SPEED]. *)
Definition gui_add_lert (g : globals) (simulation : MetroSimulation)
    : MetroSimulation :=
  set_lerts (lerts simulation ++
               [Lert_init (length (lerts simulation)) (LERT_SPEED g)])
            simulation.

(** [MetroSimulationGUI.remove_lert]: [lerts.pop()] on a non-empty
    fleet *)
Definition gui_remove_lert (simulation : MetroSimulation)
    : MetroSimulation :=
  if (0 <? length (lerts simulation))%nat then
    set_lerts (take (length (lerts simulation) - 1) (lerts simulation))
              simulation
  else simulation.

(** [MetroSimulationGUI.change_rate], on the number the scale passes *)
Definition change_rate (g : globals) (value : Q) : globals :=
  set_REQUEST_RATE (value / 60) g.

(** The simulation part of [MetroSimulationGUI.update_display] while
    running: one more second of simulated time *)
Definition update_display (ds : list draws) (g : globals)
    (simulation : MetroSimulation) : result (option MetroSimulation) :=
  run_until ds g simulation (current_time simulation + 1)%Q.

End sim4.

(** * Specification vocabulary *)

(** ** Binary heaps laid out in a list *)

(** The parent of slot [j]: [(j - 1) >> 1] *)
Definition parent (j : nat) : nat := Nat.shiftr (j - 1) 1.

Arguments parent : simpl never.

(** Every slot is above its parent for the relation [R]. *)
Definition heap_ok {A : Type} (R : A → A → Prop) (h : list A) : Prop :=
  ∀ j x y, 0 < j → h !! parent j = Some x → h !! j = Some y → R x y.

(** The heap is in order except for the link between [pos] and its
    parent, and the parent of [pos] is below the children of [pos]. *)
Definition up_inv {A : Type} (R : A → A → Prop) (h : list A) (pos : nat)
    : Prop :=
  (∀ j x y, 0 < j → j ≠ pos →
     h !! parent j = Some x → h !! j = Some y → R x y) ∧
  (∀ c x y, 0 < pos → 0 < c → parent c = pos →
     h !! parent pos = Some x → h !! c = Some y → R x y).

(** The heap is in order except for the links that touch the slot [pos],
    and the parent of [pos] is below the children of [pos]. *)
Definition down_inv {A : Type} (R : A → A → Prop) (h : list A) (pos : nat)
    : Prop :=
  (∀ j x y, 0 < j → j ≠ pos → parent j ≠ pos →
     h !! parent j = Some x → h !! j = Some y → R x y) ∧
  (∀ c x y, 0 < pos → 0 < c → parent c = pos →
     h !! parent pos = Some x → h !! c = Some y → R x y).

(** ** The order of the event queue *)

(** Events compared on [(event_time, event_type)], the part of the tuple
    that is ordered: an earlier time first, and at equal times an
    ['arrival'] before a ['complete']. *)
Definition ev_le (a b : event) : Prop :=
  (ev_time a < ev_time b)%Q ∨
  ((ev_time a == ev_time b)%Q ∧
   (ev_type a = complete → ev_type b = complete)).

(** The comparisons between the events of [q] all return. *)
Definition comparable (q : list event) : Prop :=
  ∀ a b, a ∈ q → b ∈ q → ∃ c, event_lt a b = Ok c.

(** ** Calls and runs *)

(** The methods a driver calls on a simulation *)
Inductive call : Type :=
| call_run_step (d : draws)
| call_add_lert
| call_remove_lert
| call_set_request_rate (new_rate_per_minute : Q)
| call_set_speed (new_speed_kmh : Q).

Definition do_call (c : call) (g : globals) (self : MetroSimulation)
    : result (globals * MetroSimulation * option output) :=
  match c with
  | call_run_step d => s ← run_step g d self; Ok (g, s, None)
  | call_add_lert => '(s, o) ← add_lert self; Ok (g, s, Some o)
  | call_remove_lert =>
      let '(s, o) := remove_lert self in Ok (g, s, Some o)
  | call_set_request_rate r =>
      let '(g, o) := set_request_rate g r in Ok (g, self, Some o)
  | call_set_speed v =>
      let '(g, s, o) := set_speed g self v in Ok (g, s, Some o)
  end.

(** The event a call takes off the queue: [run_step] pops the head of the
    heap, the other methods none. *)
Definition processed (c : call) (self : MetroSimulation) : list event :=
  match c with
  | call_run_step _ => option_list (head (event_queue self))
  | _ => []
  end.

(** A run: the module state, the object, and the events processed so
    far, oldest first. *)
Definition run_state : Type := globals * MetroSimulation * list event.

Fixpoint run_calls (cs : list call) (st : run_state) : result run_state :=
  match cs with
  | [] => Ok st
  | c :: cs =>
      let '(g, s, log) := st in
      '(g', s', _) ← do_call c g s;
      run_calls cs (g', s', log ++ processed c s)
  end.

(** [sim = MetroSimulation()] in a freshly loaded module *)
Definition start (e : Q) : result run_state :=
  s ← MetroSimulation_init module_globals e; Ok (module_globals, s, []).

(** The samples are in the range of their generators. *)
Definition valid_draws (d : draws) : Prop :=
  (0 <= uniform d)%Q ∧ (uniform d < 1)%Q ∧ (0 <= exponential d)%Q.

(** A call whose random samples are in range and whose setter argument is
    positive. *)
Definition positive_call (c : call) : Prop :=
  match c with
  | call_run_step d => valid_draws d
  | call_set_request_rate r => (0 < r)%Q
  | call_set_speed v => (0 < v)%Q
  | _ => True
  end.

(** ** Several simulations in one process *)



(** ** Sample inputs *)

(** An object with the fleet [ls], no event and no request *)
Definition quiet_sim (ls : list Lert) : MetroSimulation :=
  {| current_time := 0; event_queue := []; requests := [];
     completed_requests := 0; total_wait_time := 0;
     total_travel_time := 0; lerts := ls |}.

(** The samples of a step: a pickup at half the radius, a unit
    exponential sample *)
Definition half_radius : draws :=
  {| choice := to_station; uniform := 1 / 2; exponential := 1 |}.

(** The samples of a step: a pickup at the station itself *)
Definition at_station : draws :=
  {| choice := to_station; uniform := 0; exponential := 1 |}.

(** The module state of Scenario A: one vehicle *)
Definition one_vehicle : globals :=
  {| METRO_RADIUS := 3; REQUEST_RATE := 100 / 60;
     INITIAL_LERT_COUNT := 1; LERT_SPEED_KMH := 25;
     LERT_SPEED := 25 / 3600; POISSON_REQUESTS := true |}.

(** ** Comparing [sim3.py] and [sim4.py] *)

(** The state of a vehicle: its id, speed, [next_free_time] and trip
    count.  (The attribute [status] is written by [sim3.py]'s [assign]
    and read nowhere; availability is derived from [next_free_time].) *)
Definition vehicle_state (l : Lert) : nat * Q * Q * nat :=
  (id l, speed l, next_free_time l, total_trips l).

(** The same vehicle in the two versions: the same state, and the same
    [status] unless [sim3.py] has marked it ['busy']. *)
Definition same_vehicle (a b : Lert) : Prop :=
  vehicle_state a = vehicle_state b ∧ (status a = status b ∨ status a = busy).

(** Two objects with the same clock, queue, requests and statistics, and
    the same vehicles, one by one *)
Definition same_run (s3 s4 : MetroSimulation) : Prop :=
  current_time s3 = current_time s4 ∧
  event_queue s3 = event_queue s4 ∧
  requests s3 = requests s4 ∧
  completed_requests s3 = completed_requests s4 ∧
  total_wait_time s3 = total_wait_time s4 ∧
  total_travel_time s3 = total_travel_time s4 ∧
  Forall2 same_vehicle (lerts s3) (lerts s4).

(** Both computations return, with the same run, or both raise the same
    exception. *)
Definition same_outcome (r3 r4 : result MetroSimulation) : Prop :=
  match r3, r4 with
  | Ok s3, Ok s4 => same_run s3 s4
  | Raise e3, Raise e4 => e3 = e4
  | _, _ => False
  end.

(** ** The invariant of a run *)

(** How many events of [q] carry the request [i] *)
Definition refs_to (i : nat) (q : list event) : nat :=
  length (filter (λ e, ev_request e = Some i) q).

(** The request [r], stored at [i], is consistent with the clock [now],
    the queue [q] and the processed events [log]: it was created in the
    past at a non-negative distance; when assigned, its service started
    after its creation, lasts a non-negative time (positive for a
    positive distance), and exactly one event carries it, in the queue or
    processed; when not yet assigned, no event carries it. *)
Definition req_ok (now : Q) (q log : list event) (i : nat) (r : Request)
    : Prop :=
  wait_start r = time r ∧ (time r <= now)%Q ∧ (0 <= distance r)%Q ∧
  if assigned r then
    ∃ we trav,
      wait_end r = Some we ∧ travel_time r = Some trav ∧
      (time r <= we)%Q ∧ (0 <= trav)%Q ∧
      ((0 < distance r)%Q → (0 < trav)%Q) ∧
      refs_to i q + refs_to i log = 1
  else refs_to i q = 0 ∧ refs_to i log = 0.

Definition sim_inv (g : globals) (s : MetroSimulation) (log : list event)
    : Prop :=
  (0 < REQUEST_RATE g)%Q ∧ (0 <= METRO_RADIUS g)%Q ∧
  heap_ok ev_le (event_queue s) ∧
  Forall (λ e, (current_time s <= ev_time e)%Q) (event_queue s) ∧
  Forall (λ l, (0 < speed l)%Q) (lerts s) ∧
  (∀ i r, requests s !! i = Some r →
          req_ok (current_time s) (event_queue s) log i r) ∧
  (∀ e i, e ∈ event_queue s ++ log → ev_request e = Some i →
          i < length (requests s)).

(** ** The books of a run *)

#[global] Instance event_type_eq_dec : EqDecision event_type.
Proof. solve_decision. Defined.

(** How many events of [l] are of the type [ty] *)
Definition count_type (ty : event_type) (l : list event) : nat :=
  length (filter (λ e, ev_type e = ty) l).

(** The two forms of event the simulation schedules: an arrival carries
    no request, a completion carries one of the [n] requests. *)
Definition ev_shape (n : nat) (e : event) : Prop :=
  match ev_type e with
  | arrival => ev_request e = None
  | complete => ∃ i, ev_request e = Some i ∧ i < n
  end.

(** How many requests are assigned *)
Definition assigned_count (rs : list Request) : nat :=
  sum_list ((λ r, if assigned r then 1 else 0) <$> rs).

(** The books of the object [s] after the events [log] were processed:
    events have one of the two forms; one arrival is pending; one request
    was created per arrival processed and one completion counted per
    completion processed; as many requests are assigned as completions
    are queued or processed; an assigned request has its service recorded
    and is carried by exactly one event, a pending one by none. *)
Definition book_inv (s : MetroSimulation) (log : list event) : Prop :=
  Forall (ev_shape (length (requests s))) (event_queue s ++ log) ∧
  count_type arrival (event_queue s) = 1 ∧
  count_type arrival log = length (requests s) ∧
  count_type complete log = completed_requests s ∧
  assigned_count (requests s)
  = count_type complete (event_queue s) + count_type complete log ∧
  ∀ i r, requests s !! i = Some r →
    if assigned r then
      is_Some (wait_end r) ∧ is_Some (travel_time r) ∧
      refs_to i (event_queue s) + refs_to i log = 1
    else refs_to i (event_queue s) = 0 ∧ refs_to i log = 0.

(** The keys of [l] never decrease: each item is below all the later
    ones. *)
Fixpoint sorted_by (key : nat → Q) (l : list nat) : Prop :=
  match l with
  | [] => True
  | x :: l' => Forall (λ y, (key x <= key y)%Q) l' ∧ sorted_by key l'
  end.

(** The same for the two [run_until]: both still running, or both
    returned with the same run, or both raised the same exception. *)
Definition same_loop_outcome (r3 r4 : result (option MetroSimulation))
    : Prop :=
  match r3, r4 with
  | Ok (Some s3), Ok (Some s4) => same_run s3 s4
  | Ok None, Ok None => True
  | Raise e3, Raise e4 => e3 = e4
  | _, _ => False
  end.

(** The vehicle at each position is numbered with that position. *)
Definition ids_are_positions (s : MetroSimulation) : Prop :=
  id <$> lerts s = seq 0 (length (lerts s)).


(** ** The statistics of a run *)

(** The completion events of [log] *)
Definition completions (log : list event) : list event :=
  filter (λ e, ev_type e = complete) log.

(** The request an event carries *)
Definition request_of (rs : list Request) (e : event) : option Request :=
  match ev_request e with
  | Some i => rs !! i
  | None => None
  end.

(** The requests of the completions processed, in the order of their
    completion *)
Definition completed (s : MetroSimulation) (log : list event)
    : list Request :=
  omap (request_of (requests s)) (completions log).

(** [wait_end - wait_start] of a request that was served *)
Definition wait_time_of (r : Request) : Q :=
  match wait_end r with
  | Some we => (we - wait_start r)%Q
  | None => 0%Q
  end.

Definition travel_time_of (r : Request) : Q := default 0%Q (travel_time r).

Definition sum_Q (l : list Q) : Q := foldr Qplus 0%Q l.

(** The two totals are the sums over the completed requests. *)
Definition totals_inv (s : MetroSimulation) (log : list event) : Prop :=
  (total_wait_time s == sum_Q (wait_time_of <$> completed s log))%Q ∧
  (total_travel_time s == sum_Q (travel_time_of <$> completed s log))%Q.

(** * Proofs *)

(** ** Running the model *)

(** A fresh simulation: 25 idle vehicles, and the first arrival queued
    one mean gap (0.6) after time 0 for a unit exponential sample. *)
Example fresh_simulation :
  (s ← MetroSimulation_init module_globals 1;
   Ok (length (lerts s), Qred (current_time s),
       (λ e, (Qred (ev_time e), ev_type e, ev_request e))
         <$> event_queue s))
  = Ok (25, 0%Q, [(Qred (6 / 10), arrival, None)]).
Proof. vm_compute. reflexivity. Qed.

(** The sort is stable: requests 0 and 2, created at the same time, keep
    their order. *)
Example sort_is_stable :
  sort_by_key (λ i, if (i =? 1)%nat then 3%Q else 5%Q) [0; 1; 2]
  = [1; 0; 2].
Proof. vm_compute. reflexivity. Qed.

(** Two completions at the same time fall through to the comparison of
    their requests, which is not defined. *)
Example same_time_completions_raise :
  (q ← heappush [] (5%Q, complete, Some 0);
   heappush q (5%Q, complete, Some 1)) = Raise TypeError.
Proof. vm_compute. reflexivity. Qed.

(** ** The result monad *)

Lemma bind_Ok {A B : Type} (m : result A) (f : A → result B) (b : B) :
  m ≫= f = Ok b → ∃ a, m = Ok a ∧ f a = Ok b.
Proof. destruct m as [a|e]; cbn; [eauto | discriminate]. Qed.

(** Reduce the binds whose first computation is known. *)
Ltac rbind := cbn [mbind result_bind].

Tactic Notation "rbind" "in" hyp(H) := cbn [mbind result_bind] in H.

Lemma getitem_Ok {A : Type} (l : list A) (i : nat) (x : A) :
  getitem l i = Ok x ↔ l !! i = Some x.
Proof.
  unfold getitem. destruct (l !! i); split; intros H; congruence.
Qed.

Lemma getitem_lt {A : Type} (l : list A) (i : nat) :
  i < length l → ∃ x, getitem l i = Ok x ∧ l !! i = Some x.
Proof.
  intros H. apply lookup_lt_is_Some in H as [x Hx].
  exists x. split; [by apply getitem_Ok | done].
Qed.

Lemma list_pop_Ok {A : Type} (l l' : list A) (x : A) :
  list_pop l = Ok (x, l') ↔ l = l' ++ [x].
Proof.
  unfold list_pop. split.
  - destruct (last l) as [y|] eqn:Hl; [|discriminate].
    intros [= -> <-]. apply last_Some in Hl as [k ->].
    rewrite length_app, Nat.add_sub. cbn. by rewrite take_app_length.
  - intros ->. rewrite last_snoc, length_app, Nat.add_sub. cbn.
    by rewrite take_app_length.
Qed.

(** ** Arithmetic of heap positions *)

Lemma parent_spec (j : nat) :
  0 < j → j = 2 * parent j + 1 ∨ j = 2 * parent j + 2.
Proof.
  intros Hj. unfold parent. cbn [Nat.shiftr nat_rect].
  destruct (Nat.Even_Odd_dec (j - 1)) as [E|O].
  - apply Nat.Even_double in E. unfold Nat.double in E. lia.
  - apply Nat.Odd_double in O. unfold Nat.double in O. lia.
Qed.

Lemma parent_left (p : nat) : parent (2 * p + 1) = p.
Proof. pose proof (parent_spec (2 * p + 1)). lia. Qed.

Lemma parent_right (p : nat) : parent (2 * p + 2) = p.
Proof. pose proof (parent_spec (2 * p + 2)). lia. Qed.

Lemma parent_lt (j : nat) : 0 < j → parent j < j.
Proof. intros Hj. pose proof (parent_spec j Hj). lia. Qed.

(** ** Soundness of [heapq] for any order the comparison agrees with *)

Section heap_theory.
Context {A : Type} (lt : A → A → result bool) (R : A → A → Prop).
Hypothesis R_trans : ∀ x y z, R x y → R y z → R x z.
Hypothesis lt_true : ∀ a b, lt a b = Ok true → R a b.
Hypothesis lt_false : ∀ a b, lt a b = Ok false → R b a.

Lemma up_inv_swap (h : list A) (pos : nat) (newitem par : A) :
  0 < pos → pos < length h →
  h !! pos = Some newitem → h !! parent pos = Some par →
  R newitem par →
  up_inv R h pos →
  up_inv R (<[parent pos := newitem]> (<[pos := par]> h)) (parent pos).
Proof.
  intros Hpos Hlen Hnew Hpar Hlt [I1 I2].
  pose proof (parent_lt pos Hpos) as Hpp.
  assert (Hlk : ∀ k, <[parent pos := newitem]> (<[pos := par]> h) !! k =
                 if decide (k = parent pos) then Some newitem
                 else if decide (k = pos) then Some par else h !! k).
  { intros k. destruct (decide (k = parent pos)) as [->|Hk].
    - apply list_lookup_insert_eq. rewrite length_insert. lia.
    - rewrite list_lookup_insert_ne by done.
      destruct (decide (k = pos)) as [->|Hk'].
      + by apply list_lookup_insert_eq.
      + by rewrite list_lookup_insert_ne. }
  split.
  - intros j x y Hj Hne. rewrite !Hlk.
    pose proof (parent_lt j Hj).
    destruct (decide (j = parent pos)) as [|_]; [done|].
    destruct (decide (parent j = parent pos)) as [Hsib|Hns].
    + intros [= <-]. destruct (decide (j = pos)) as [->|Hjp].
      * by intros [= <-].
      * intros Hy. apply R_trans with par; [done|].
        apply (I1 j); [done..| |done]. by rewrite Hsib.
    + destruct (decide (parent j = pos)) as [Hc|Hnc].
      * intros [= <-]. destruct (decide (j = pos)) as [->|Hjp]; [lia|].
        intros Hy. by apply (I2 j).
      * destruct (decide (j = pos)) as [->|Hjp]; [done|].
        by apply I1.
  - intros c x y Hp Hc Hpc. rewrite !Hlk.
    pose proof (parent_lt (parent pos) Hp).
    destruct (decide (parent (parent pos) = parent pos)) as [|_]; [lia|].
    destruct (decide (parent (parent pos) = pos)) as [|_]; [lia|].
    destruct (decide (c = parent pos)) as [|_]; [pose proof (parent_lt c Hc); lia|].
    intros Hx. assert (R x par) as Hxp by (by apply (I1 (parent pos)); [|lia|..]).
    destruct (decide (c = pos)) as [->|Hcp].
    + by intros [= <-].
    + intros Hy. apply R_trans with par; [done|].
      apply (I1 c); [done..| |done]. by rewrite Hpc.
Qed.

Lemma siftdown_loop_S (n : nat) (h : list A) (startpos pos : nat) (x : A) :
  heapq.siftdown_loop lt (S n) h startpos pos x =
  if startpos <? pos then
    par ← getitem h (parent pos);
    b ← lt x par;
    if b : bool then
      heapq.siftdown_loop lt n (<[pos := par]> h) startpos (parent pos) x
    else Ok (h, pos)
  else Ok (h, pos).
Proof. reflexivity. Qed.

Lemma siftdown_loop_sound (n : nat) : ∀ (h : list A) pos newitem h' pos',
  pos ≤ n → pos < length h →
  up_inv R (<[pos := newitem]> h) pos →
  heapq.siftdown_loop lt n h 0 pos newitem = Ok (h', pos') →
  heap_ok R (<[pos' := newitem]> h') ∧
  <[pos' := newitem]> h' ≡ₚ <[pos := newitem]> h.
Proof.
  induction n as [|n IH]; intros h pos newitem h' pos' Hn Hlen Hinv Hrun;
    pose proof Hinv as [I1 I2].
  - injection Hrun as <- <-. split; [|done].
    intros j x y Hj Hx Hy. eapply (I1 j); eauto; lia.
  - rewrite siftdown_loop_S in Hrun. destruct (0 <? pos) eqn:Hpos.
    + apply Nat.ltb_lt in Hpos.
      pose proof (parent_lt pos Hpos) as Hpp.
      apply bind_Ok in Hrun as (par & Hpar & Hrun). apply getitem_Ok in Hpar.
      apply bind_Ok in Hrun as (b & Hb & Hrun).
      assert (Hnew : <[pos := newitem]> h !! pos = Some newitem)
        by (by apply list_lookup_insert_eq).
      assert (Hpar' : <[pos := newitem]> h !! parent pos = Some par)
        by (rewrite list_lookup_insert_ne by lia; done).
      destruct b.
      * apply IH in Hrun as [Hok Hperm].
        -- split; [done|]. rewrite Hperm.
           rewrite <- (list_insert_insert_eq h pos par newitem).
           by apply Permutation_insert_swap.
        -- lia.
        -- rewrite length_insert. lia.
        -- rewrite <- (list_insert_insert_eq h pos par newitem).
           apply up_inv_swap; auto. by rewrite length_insert.
      * injection Hrun as <- <-. split; [|done].
        intros j x y Hj Hx Hy. destruct (decide (j = pos)) as [->|Hne].
        -- rewrite Hpar' in Hx. rewrite Hnew in Hy.
           injection Hx as <-. injection Hy as <-. by apply lt_false.
        -- by apply (I1 j).
    + injection Hrun as <- <-. split; [|done].
      apply Nat.ltb_ge in Hpos.
      intros j x y Hj Hx Hy. eapply (I1 j); eauto; lia.
Qed.

Lemma siftdown_sound (h h' : list A) (pos : nat) :
  pos < length h → up_inv R h pos →
  heapq._siftdown lt h 0 pos = Ok h' →
  heap_ok R h' ∧ h' ≡ₚ h.
Proof.
  intros Hlen Hinv Hrun. unfold heapq._siftdown in Hrun.
  apply bind_Ok in Hrun as (newitem & Hnew & Hrun). apply getitem_Ok in Hnew.
  apply bind_Ok in Hrun as ([h1 pos1] & Hloop & [= <-]).
  apply siftdown_loop_sound in Hloop; [|done..|by rewrite list_insert_id].
  by rewrite (list_insert_id h pos newitem) in Hloop.
Qed.

Lemma siftup_loop_S (n : nat) (h : list A) (endpos pos : nat) :
  heapq.siftup_loop lt (S n) h endpos pos =
  if 2 * pos + 1 <? endpos then
    childpos ←
      (if 2 * pos + 1 + 1 <? endpos then
         l ← getitem h (2 * pos + 1);
         r ← getitem h (2 * pos + 1 + 1);
         b ← lt l r;
         Ok (if negb b then 2 * pos + 1 + 1 else 2 * pos + 1)
       else Ok (2 * pos + 1));
    c ← getitem h childpos;
    heapq.siftup_loop lt n (<[pos := c]> h) endpos childpos
  else Ok (h, pos).
Proof. reflexivity. Qed.

Lemma down_inv_step (h : list A) (pos c : nat) (x : A) :
  parent c = pos → 0 < c → h !! c = Some x →
  (∀ s y, 0 < s → parent s = pos → s ≠ c → h !! s = Some y → R x y) →
  down_inv R h pos →
  down_inv R (<[pos := x]> h) c.
Proof.
  intros Hpc Hc Hx Hsib [D1 D2].
  pose proof (parent_lt c Hc) as Hlt.
  assert (Hpl : pos < length h).
  { apply lookup_lt_Some in Hx. lia. }
  assert (Hlk : ∀ k, <[pos := x]> h !! k =
                 if decide (k = pos) then Some x else h !! k).
  { intros k. destruct (decide (k = pos)) as [->|Hk].
    - by apply list_lookup_insert_eq.
    - by rewrite list_lookup_insert_ne. }
  split.
  - intros j a b Hj Hjc Hpjc. rewrite !Hlk.
    pose proof (parent_lt j Hj).
    destruct (decide (parent j = pos)) as [Hpj|Hpj].
    + intros [= <-]. destruct (decide (j = pos)) as [|_]; [lia|].
      by apply Hsib.
    + destruct (decide (j = pos)) as [->|Hjp].
      * intros Ha [= <-]. apply (D2 c); auto.
      * by apply D1.
  - intros d a b _ Hd Hpd. rewrite !Hlk.
    pose proof (parent_lt d Hd).
    destruct (decide (parent c = pos)) as [_|]; [|done].
    intros [= <-]. destruct (decide (d = pos)) as [|_]; [lia|].
    intros Hb. apply (D1 d); auto; try lia. by rewrite Hpd.
Qed.

Lemma siftup_loop_sound (n : nat) : ∀ (h : list A) pos h' pos',
  length h ≤ n + pos → pos < length h →
  down_inv R h pos →
  heapq.siftup_loop lt n h (length h) pos = Ok (h', pos') →
  down_inv R h' pos' ∧ pos' < length h' ∧ length h' ≤ 2 * pos' + 1 ∧
  ∀ v, <[pos' := v]> h' ≡ₚ <[pos := v]> h.
Proof.
  induction n as [|n IH]; intros h pos h' pos' Hn Hlen Hinv Hrun.
  - injection Hrun as <- <-. do 3 (split; [done || lia|]). done.
  - rewrite siftup_loop_S in Hrun.
    destruct (2 * pos + 1 <? length h) eqn:Hc.
    + apply Nat.ltb_lt in Hc.
      apply bind_Ok in Hrun as (c & Hchoose & Hrun).
      apply bind_Ok in Hrun as (x & Hx & Hrun). apply getitem_Ok in Hx.
      assert (parent c = pos ∧ 0 < c ∧
                ∀ s y, 0 < s → parent s = pos → s ≠ c →
                       h !! s = Some y → R x y) as (Hpc & Hc0 & Hsib).
      { destruct (2 * pos + 1 + 1 <? length h) eqn:Hr.
        - apply bind_Ok in Hchoose as (l & Hl & Hchoose).
          apply bind_Ok in Hchoose as (r & Hr' & Hchoose).
          apply bind_Ok in Hchoose as (b & Hb & Hchoose).
          apply getitem_Ok in Hl, Hr'.
          destruct b; unfold negb in Hchoose; cbv iota in Hchoose;
            [assert (c = 2 * pos + 1) as -> by congruence
            |assert (c = 2 * pos + 1 + 1) as -> by congruence].
          + split; [apply parent_left|]. split; [lia|].
            intros s y Hs Hps Hne Hy. pose proof (parent_spec s Hs).
            assert (s = 2 * pos + 1 + 1) as -> by lia.
            assert (x = l) as -> by congruence.
            assert (y = r) as -> by congruence. by apply lt_true.
          + split; [replace (2 * pos + 1 + 1) with (2 * pos + 2) by lia;
                    apply parent_right|]. split; [lia|].
            intros s y Hs Hps Hne Hy. pose proof (parent_spec s Hs).
            assert (s = 2 * pos + 1) as -> by lia.
            assert (x = r) as -> by congruence.
            assert (y = l) as -> by congruence. by apply lt_false.
        - assert (c = 2 * pos + 1) as -> by congruence.
          apply Nat.ltb_ge in Hr.
          split; [apply parent_left|]. split; [lia|].
          intros s y Hs Hps Hne Hy. pose proof (parent_spec s Hs).
          apply lookup_lt_Some in Hy. lia. }
      pose proof (parent_lt c Hc0) as Hlt.
      pose proof (lookup_lt_Some _ _ _ Hx) as Hcl.
      rewrite <- (length_insert h pos x) in Hrun.
      apply IH in Hrun as (Hd & Hp' & Hleaf & Hperm).
      * do 3 (split; [done|]).
        intros v. rewrite Hperm.
        rewrite <- (list_insert_insert_eq h pos x v).
        apply Permutation_insert_swap.
        -- by apply list_lookup_insert_eq.
        -- rewrite list_lookup_insert_ne by lia. done.
      * rewrite length_insert. lia.
      * by rewrite length_insert.
      * by apply down_inv_step.
    + injection Hrun as <- <-. apply Nat.ltb_ge in Hc.
      do 3 (split; [done || lia|]). done.
Qed.

Lemma siftup_sound (h h' : list A) :
  0 < length h → down_inv R h 0 →
  heapq._siftup lt h 0 = Ok h' →
  heap_ok R h' ∧ h' ≡ₚ h.
Proof.
  intros Hlen Hinv Hrun. unfold heapq._siftup in Hrun.
  apply bind_Ok in Hrun as (newitem & Hnew & Hrun). apply getitem_Ok in Hnew.
  apply bind_Ok in Hrun as ([h1 pos1] & Hloop & Hrun).
  apply siftup_loop_sound in Hloop as ([D1 D2] & Hp & Hleaf & Hperm);
    [|lia|done..].
  apply siftdown_sound in Hrun as [Hok Hperm'].
  - split; [done|]. rewrite Hperm', Hperm. by rewrite list_insert_id.
  - by rewrite length_insert.
  - assert (Hlk : ∀ k, k ≠ pos1 → <[pos1 := newitem]> h1 !! k = h1 !! k).
    { intros k Hk. by rewrite list_lookup_insert_ne. }
    split.
    + intros j x y Hj Hne Hx Hy. pose proof (parent_spec j Hj).
      destruct (decide (parent j = pos1)) as [Hpj|Hpj].
      * apply lookup_lt_Some in Hy. rewrite length_insert in Hy. lia.
      * rewrite Hlk in Hx, Hy by done. by apply (D1 j).
    + intros c x y _ Hc Hpc _ Hy. pose proof (parent_spec c Hc).
      apply lookup_lt_Some in Hy. rewrite length_insert in Hy. lia.
Qed.

Lemma heap_ok_nil : heap_ok R (@nil A).
Proof. intros j x y _ Hx. by rewrite lookup_nil in Hx. Qed.

Lemma heap_ok_root_min (h : list A) (x : A) :
  heap_ok R h → h !! 0 = Some x →
  ∀ j y, 0 < j → h !! j = Some y → R x y.
Proof.
  intros Hok Hx j. induction (lt_wf j) as [j _ IH]. intros y Hj Hy.
  pose proof (parent_lt j Hj) as Hlt.
  destruct (lookup_lt_is_Some_2 h (parent j)) as [z Hz].
  { apply lookup_lt_Some in Hy. lia. }
  destruct (decide (parent j = 0)) as [H0|H0].
  - rewrite H0 in Hz. assert (z = x) as -> by congruence.
    apply (Hok j); [done| |done]. by rewrite H0.
  - apply R_trans with z.
    + apply (IH (parent j)); [done|lia|done].
    + by apply (Hok j).
Qed.

Lemma heappush_sound (h h' : list A) (x : A) :
  heap_ok R h → heapq.heappush lt h x = Ok h' →
  heap_ok R h' ∧ h' ≡ₚ x :: h.
Proof.
  intros Hok Hrun. unfold heapq.heappush in Hrun.
  rewrite length_app, Nat.add_sub in Hrun.
  apply siftdown_sound in Hrun as [Hok' Hperm].
  - split; [done|]. rewrite Hperm. by rewrite Permutation_app_comm.
  - rewrite length_app. cbn. lia.
  - split.
    + intros j a b Hj Hne Ha Hb.
      pose proof (parent_lt j Hj).
      pose proof (lookup_lt_Some _ _ _ Hb) as Hjl.
      rewrite length_app in Hjl. cbn in Hjl.
      rewrite lookup_app_l in Ha, Hb by lia. by apply (Hok j).
    + intros c a b _ Hc Hpc _ Hb. pose proof (parent_spec c Hc).
      apply lookup_lt_Some in Hb. rewrite length_app in Hb. cbn in Hb. lia.
Qed.

Lemma heappop_sound (h h' : list A) (x : A) :
  heap_ok R h → heapq.heappop lt h = Ok (x, h') →
  heap_ok R h' ∧ h ≡ₚ x :: h' ∧ head h = Some x ∧ Forall (R x) h'.
Proof.
  intros Hok Hrun. unfold heapq.heappop in Hrun.
  apply bind_Ok in Hrun as ([lastelt h0] & Hpop & Hrun).
  apply list_pop_Ok in Hpop as ->.
  destruct h0 as [|r t].
  - injection Hrun as <- <-. split; [apply heap_ok_nil|].
    split; [done|]. split; [done|]. constructor.
  - apply bind_Ok in Hrun as (ret & [= <-] & Hrun).
    apply bind_Ok in Hrun as (h2 & Hup & [= <- <-]).
    cbn [insert list_insert] in Hup.
    apply siftup_sound in Hup as [Hok' Hperm]; [|cbn; lia|].
    + split; [done|]. split; [|split; [done|]].
      * rewrite Hperm. cbn. f_equiv. by rewrite Permutation_app_comm.
      * rewrite Hperm. rewrite Permutation_app_comm with (l := [lastelt]) (l' := t).
        apply Forall_lookup. intros i y Hy.
        apply (heap_ok_root_min ((r :: t) ++ [lastelt]) r Hok eq_refl (S i));
          [lia|done].
    + split; [|intros; lia].
      intros j a b Hj Hj0 Hpj Ha Hb.
      pose proof (parent_lt j Hj).
      pose proof (lookup_lt_Some _ _ _ Hb) as Hjl. cbn in Hjl.
      destruct j as [|j]; [lia|]. 
      destruct (parent (S j)) as [|p] eqn:Hp; [done|].
      cbn in Ha, Hb. apply (Hok (S j)); [lia|..].
      * rewrite Hp. simpl. rewrite lookup_app_l by lia. done.
      * simpl. rewrite lookup_app_l by lia. done.
Qed.

End heap_theory.

(** ** The recursion bounds of the two loops are enough *)

Section heapq_bounds.
Context {A : Type} (lt : A → A → result bool).

Lemma siftdown_loop_bound (n : nat) : ∀ m (h : list A) pos x,
  pos ≤ n → pos ≤ m →
  heapq.siftdown_loop lt n h 0 pos x = heapq.siftdown_loop lt m h 0 pos x.
Proof.
  induction n as [|n IH]; intros [|m] h pos x Hn Hm; try done.
  - assert (pos = 0) as -> by lia. done.
  - assert (pos = 0) as -> by lia. done.
  - rewrite !siftdown_loop_S. destruct (0 <? pos) eqn:Hpos; [|done].
    apply Nat.ltb_lt in Hpos. pose proof (parent_lt pos Hpos).
    destruct (getitem h (parent pos)) as [par|]; [|done]. rbind.
    destruct (lt x par) as [[|]|]; try done. rbind.
    apply IH; lia.
Qed.

Lemma siftup_loop_bound (n : nat) : ∀ m (h : list A) endpos pos,
  endpos ≤ n + pos → endpos ≤ m + pos →
  heapq.siftup_loop lt n h endpos pos = heapq.siftup_loop lt m h endpos pos.
Proof.
  induction n as [|n IH]; intros [|m] h endpos pos Hn Hm; try done.
  - rewrite siftup_loop_S.
    destruct (2 * pos + 1 <? endpos) eqn:Hc; [|done].
    apply Nat.ltb_lt in Hc. lia.
  - rewrite siftup_loop_S.
    destruct (2 * pos + 1 <? endpos) eqn:Hc; [|done].
    apply Nat.ltb_lt in Hc. lia.
  - rewrite !siftup_loop_S.
    destruct (2 * pos + 1 <? endpos) eqn:Hc; [|done].
    apply Nat.ltb_lt in Hc.
    destruct (2 * pos + 1 + 1 <? endpos) eqn:Hr.
    + destruct (getitem h (2 * pos + 1)) as [l|]; [|done]. rbind.
      destruct (getitem h (2 * pos + 1 + 1)) as [r|]; [|done]. rbind.
      destruct (lt l r) as [b|]; [|done]. rbind.
      destruct (getitem h _) as [c|]; [|done]. rbind.
      apply IH; destruct b; simpl; lia.
    + rbind. destruct (getitem h _) as [c|]; [|done]. rbind.
      apply IH; lia.
Qed.

(** ** [heapq] returns whenever the comparisons it makes are defined *)

Context (P : A → Prop).
Hypothesis lt_defined : ∀ a b, P a → P b → ∃ c, lt a b = Ok c.

Lemma siftdown_loop_total (n : nat) : ∀ (h : list A) pos x,
  pos < length h → Forall P h → P x →
  ∃ h' pos', heapq.siftdown_loop lt n h 0 pos x = Ok (h', pos').
Proof.
  induction n as [|n IH]; intros h pos x Hlen Hall Hx; [by eauto|].
  rewrite siftdown_loop_S. destruct (0 <? pos) eqn:Hpos; [|by eauto].
  apply Nat.ltb_lt in Hpos. pose proof (parent_lt pos Hpos).
  destruct (getitem_lt h (parent pos)) as (par & -> & Hpar); [lia|]. rbind.
  assert (P par) as Hp by (by eapply Forall_lookup_1).
  destruct (lt_defined x par Hx Hp) as [[|] ->]; rbind; [|by eauto].
  apply IH; [rewrite length_insert; lia| |done].
  by apply Forall_insert.
Qed.

Lemma siftdown_total (h : list A) (pos : nat) :
  pos < length h → Forall P h →
  ∃ h', heapq._siftdown lt h 0 pos = Ok h'.
Proof.
  intros Hlen Hall. unfold heapq._siftdown.
  destruct (getitem_lt h pos) as (x & -> & Hx); [done|]. rbind.
  assert (P x) as Hp by (by eapply Forall_lookup_1).
  destruct (siftdown_loop_total pos h pos x) as (h' & pos' & ->); [done..|].
  rbind. eauto.
Qed.

Lemma siftup_loop_total (n : nat) : ∀ (h : list A) pos,
  pos < length h → Forall P h →
  ∃ h' pos', heapq.siftup_loop lt n h (length h) pos = Ok (h', pos') ∧
             Forall P h' ∧ pos' < length h'.
Proof.
  induction n as [|n IH]; intros h pos Hlen Hall; [by eauto|].
  rewrite siftup_loop_S.
  destruct (2 * pos + 1 <? length h) eqn:Hc; [|by eauto].
  apply Nat.ltb_lt in Hc.
  assert (∃ c, (if 2 * pos + 1 + 1 <? length h
                then l ← getitem h (2 * pos + 1);
                     r ← getitem h (2 * pos + 1 + 1);
                     b ← lt l r;
                     Ok (if negb b then 2 * pos + 1 + 1 else 2 * pos + 1)
                else Ok (2 * pos + 1)) = Ok c ∧ c < length h)
    as (c & -> & Hcl).
  { destruct (2 * pos + 1 + 1 <? length h) eqn:Hr; [|by eauto].
    apply Nat.ltb_lt in Hr.
    destruct (getitem_lt h (2 * pos + 1)) as (l & -> & Hl); [done|].
    destruct (getitem_lt h (2 * pos + 1 + 1)) as (r & -> & Hr'); [done|].
    rbind. destruct (lt_defined l r) as [b ->];
      [by eapply Forall_lookup_1..|].
    rbind. eexists. split; [done|]. by destruct b. }
  rbind. destruct (getitem_lt h c) as (x & -> & Hx); [done|]. rbind.
  rewrite <- (length_insert h pos x).
  destruct (IH (<[pos := x]> h) c) as (h' & pos' & Hrun & Hall' & Hp').
  - by rewrite length_insert.
  - apply Forall_insert; [done|]. by eapply Forall_lookup_1.
  - eauto.
Qed.

Lemma siftup_total (h : list A) :
  0 < length h → Forall P h → ∃ h', heapq._siftup lt h 0 = Ok h'.
Proof.
  intros Hlen Hall. unfold heapq._siftup.
  destruct (getitem_lt h 0) as (x & -> & Hx); [done|]. rbind.
  destruct (siftup_loop_total (length h) h 0)
    as (h' & pos' & -> & Hall' & Hp'); [done..|]. rbind.
  apply siftdown_total; [by rewrite length_insert|].
  apply Forall_insert; [done|]. by apply (Forall_lookup_1 P h 0).
Qed.


Lemma heappop_total (h : list A) :
  h ≠ [] → Forall P h → ∃ x h', heapq.heappop lt h = Ok (x, h').
Proof.
  intros Hne Hall. unfold heapq.heappop.
  destruct (last h) as [lastelt|] eqn:Hlast.
  - apply last_Some in Hlast as [h0 ->].
    rewrite (proj2 (list_pop_Ok _ h0 lastelt) eq_refl). rbind.
    apply Forall_app in Hall as [Hall Hl]. rewrite Forall_singleton in Hl.
    destruct h0 as [|r t]; [by eauto|]. rbind.
    destruct (siftup_total (<[0 := lastelt]> (r :: t))) as [h' ->];
      [simpl; lia| |rbind; eauto].
    apply Forall_cons in Hall as [_ Hall]. simpl. by constructor.
  - by apply last_None in Hlast.
Qed.

End heapq_bounds.

(** ** The event queue *)

Lemma Qlt_bool_true (a b : Q) : Qlt_bool a b = true ↔ (a < b)%Q.
Proof.
  unfold Qlt_bool. rewrite negb_true_iff. split.
  - intros H. apply Qnot_le_lt. intros Hle.
    apply Qle_bool_iff in Hle. congruence.
  - intros H. destruct (Qle_bool b a) eqn:E; [|done].
    apply Qle_bool_iff in E. by apply Qlt_not_le in H.
Qed.

Lemma Qlt_bool_false (a b : Q) : Qlt_bool a b = false ↔ (b <= a)%Q.
Proof.
  unfold Qlt_bool. rewrite negb_false_iff. apply Qle_bool_iff.
Qed.

Lemma Qeq_bool_false (a b : Q) : Qeq_bool a b = false → ¬ (a == b)%Q.
Proof. intros H E. apply Qeq_bool_iff in E. congruence. Qed.

Lemma ev_le_time (a b : event) : ev_le a b → (ev_time a <= ev_time b)%Q.
Proof. intros [H|[H _]]; lra. Qed.

Lemma ev_le_trans (a b c : event) : ev_le a b → ev_le b c → ev_le a c.
Proof.
  intros [H1|[H1 T1]] [H2|[H2 T2]].
  - left. lra.
  - left. lra.
  - left. lra.
  - right. split; [lra | auto].
Qed.

Lemma event_lt_true (a b : event) : event_lt a b = Ok true → ev_le a b.
Proof.
  unfold event_lt.
  destruct (Qeq_bool (ev_time a) (ev_time b)) eqn:Et; cbn [negb].
  - apply Qeq_bool_iff in Et.
    destruct (ev_type a) eqn:Ta, (ev_type b) eqn:Tb; cbn;
      try (intros _; right; split; [done | congruence]);
      try (intros [=]);
      destruct (ev_request a) as [i|], (ev_request b) as [j|];
      try destruct (i =? j); done.
  - intros [= H]. apply Qlt_bool_true in H. by left.
Qed.

Lemma event_lt_false (a b : event) : event_lt a b = Ok false → ev_le b a.
Proof.
  unfold event_lt.
  destruct (Qeq_bool (ev_time a) (ev_time b)) eqn:Et; cbn [negb].
  - apply Qeq_bool_iff in Et. symmetry in Et.
    destruct (ev_type a) eqn:Ta, (ev_type b) eqn:Tb; cbn;
      try (intros _; right; split; [done | congruence]);
      try (intros [=]).
  - intros [= H]. apply Qlt_bool_false in H.
    apply Qeq_bool_false in Et. left.
    apply Qle_lteq in H as [H|H]; [done|]. by symmetry in H.
Qed.

Lemma heappush_queue (q q' : list event) (e : event) :
  heap_ok ev_le q → heappush q e = Ok q' →
  heap_ok ev_le q' ∧ q' ≡ₚ e :: q.
Proof.
  apply heappush_sound;
    [apply ev_le_trans | apply event_lt_true | apply event_lt_false].
Qed.

Lemma heappop_queue (q q' : list event) (e : event) :
  heap_ok ev_le q → heappop q = Ok (e, q') →
  heap_ok ev_le q' ∧ q ≡ₚ e :: q' ∧ head q = Some e ∧ Forall (ev_le e) q'.
Proof.
  apply heappop_sound;
    [apply ev_le_trans | apply event_lt_true | apply event_lt_false].
Qed.

Lemma heappop_returns (q : list event) :
  q ≠ [] → comparable q → ∃ e q', heappop q = Ok (e, q').
Proof.
  intros Hne Hc.
  apply (heappop_total event_lt (λ e, e ∈ q)); [done..|].
  by apply Forall_forall.
Qed.


(** ** C1: the order in which events leave the queue *)

(** C1, as stated, fails: the tuples carry no sequence number.  A
    completion scheduled first at time 5 and an arrival scheduled after it
    at the same time 5 leave the queue in the opposite order, the arrival
    first. *)
Lemma C1_same_time_not_fifo :
  (q ← heappush [] (5%Q, complete, Some 0);
   q ← heappush q (5%Q, arrival, None);
   heappop q)
  = Ok ((5%Q, arrival, None), [(5%Q, complete, Some 0)]).
Proof. vm_compute. reflexivity. Qed.

(** C1, amended: the queue is a heap on the tuples themselves.  In every
    state of the queue (a list in heap order for [ev_le]; the empty queue
    is one, and [heappush] and [heappop] lead from one to another),
    scheduling adds the event and nothing else, and [heappop] removes one
    event and returns it, an event that is first for the order on
    [(event_time, event_type)]: none of the remaining events is earlier,
    and at its own time an ['arrival'] is returned before a ['complete'].
    It does return when the queue is not empty and its events can be
    compared with one another. *)
Theorem C1_pop_least_time_then_type (q : list event) :
  heap_ok ev_le q →
  (∀ e q', heappush q e = Ok q' → heap_ok ev_le q' ∧ q' ≡ₚ e :: q) ∧
  (∀ e q', heappop q = Ok (e, q') →
     heap_ok ev_le q' ∧ q ≡ₚ e :: q' ∧
     Forall (λ e', ev_le e e' ∧ (ev_time e <= ev_time e')%Q) q') ∧
  (q ≠ [] → comparable q → ∃ e q', heappop q = Ok (e, q')).
Proof.
  intros Hok. split; [|split].
  - intros e q'. by apply heappush_queue.
  - intros e q' Hpop.
    apply heappop_queue in Hpop as (Hok' & Hperm & _ & Hmin); [|done].
    split; [done|]. split; [done|].
    eapply Forall_impl; [exact Hmin|].
    intros e' Hle. split; [done | by apply ev_le_time].
  - apply heappop_returns.
Qed.

Lemma C1_pop_least_time_then_type_witness :
  heap_ok ev_le [(5%Q, arrival, None); (5%Q, complete, Some 0)] ∧
  ∃ e q',
    heappop [(5%Q, arrival, None); (5%Q, complete, Some 0)] = Ok (e, q') ∧
    [(5%Q, arrival, None); (5%Q, complete, Some 0)] ≡ₚ e :: q' ∧
    Forall (ev_le e) q'.
Proof.
  set (q := [(5%Q, arrival, None); (5%Q, complete, Some 0)]).
  assert (Hok : heap_ok ev_le q).
  { intros j x y Hj Hx Hy. destruct j as [|[|j]]; [lia| |done].
    injection Hx as <-. injection Hy as <-. right. by split. }
  split; [exact Hok|].
  destruct (C1_pop_least_time_then_type q Hok) as (_ & Hpop & _).
  exists (5%Q, arrival, None), [(5%Q, complete, Some 0)].
  assert (Hrun : heappop q
                 = Ok ((5%Q, arrival, None), [(5%Q, complete, Some 0)]))
    by (vm_compute; reflexivity).
  destruct (Hpop _ _ Hrun) as (_ & Hperm & Hmin).
  split; [exact Hrun|]. split; [exact Hperm|].
  eapply Forall_impl; [exact Hmin|]. intros e' [Hle _]. exact Hle.
Defined.

(** ** C2: the setters and non-positive arguments *)

(** C2, as stated, fails: neither setter looks at the sign of its
    argument.  [set_request_rate(0)] replaces the rate 100/60 by 0 and
    prints the usual message; [set_speed(-25)] gives the vehicle a negative
    speed. *)
Lemma C2_nonpositive_values_are_stored :
  (set_request_rate module_globals 0).2 = RateSet 0 ∧
  (REQUEST_RATE (set_request_rate module_globals 0).1 == 0)%Q ∧
  ¬ (REQUEST_RATE (set_request_rate module_globals 0).1
     == REQUEST_RATE module_globals)%Q ∧
  (set_speed module_globals (quiet_sim [Lert_init 0 (25 / 3600)]) (-25)).2
  = SpeedSet (-25) ∧
  speed <$> lerts (set_speed module_globals
                     (quiet_sim [Lert_init 0 (25 / 3600)]) (-25)).1.2
  = [(-25 / 3600)%Q].
Proof.
  split; [reflexivity|]. split; [reflexivity|]. split; [|by split].
  intros H. vm_compute in H. discriminate.
Qed.

(** C2, amended: the setters accept every argument, positive or not.
    [set_request_rate(r)] stores [r / 60] as the request rate, changes
    nothing else and prints the new rate; [set_speed(v)] stores [v] and
    [v / 3600], gives the speed [v / 3600] to every vehicle of the object,
    changes nothing else and prints the new speed.  There is no
    rejection. *)
Theorem C2_setters_store_any_value (g : globals) (self : MetroSimulation)
    (r v : Q) :
  (let '(g', o) := set_request_rate g r in
   o = RateSet r ∧ REQUEST_RATE g' = (r / 60)%Q ∧
   METRO_RADIUS g' = METRO_RADIUS g ∧
   INITIAL_LERT_COUNT g' = INITIAL_LERT_COUNT g ∧
   LERT_SPEED_KMH g' = LERT_SPEED_KMH g ∧ LERT_SPEED g' = LERT_SPEED g ∧
   POISSON_REQUESTS g' = POISSON_REQUESTS g) ∧
  (let '(g', self', o) := set_speed g self v in
   o = SpeedSet v ∧ LERT_SPEED_KMH g' = v ∧ LERT_SPEED g' = (v / 3600)%Q ∧
   REQUEST_RATE g' = REQUEST_RATE g ∧ METRO_RADIUS g' = METRO_RADIUS g ∧
   INITIAL_LERT_COUNT g' = INITIAL_LERT_COUNT g ∧
   POISSON_REQUESTS g' = POISSON_REQUESTS g ∧
   length (lerts self') = length (lerts self) ∧
   (∀ i l, lerts self !! i = Some l →
      ∃ l', lerts self' !! i = Some l' ∧ speed l' = (v / 3600)%Q ∧
            id l' = id l ∧ status l' = status l ∧
            next_free_time l' = next_free_time l ∧
            total_trips l' = total_trips l) ∧
   current_time self' = current_time self ∧
   event_queue self' = event_queue self ∧
   requests self' = requests self ∧
   completed_requests self' = completed_requests self ∧
   total_wait_time self' = total_wait_time self ∧
   total_travel_time self' = total_travel_time self).
Proof.
  split.
  - cbn. by repeat split.
  - cbn. repeat split; try done.
    + by rewrite length_fmap.
    + intros i l Hl. exists (set_speed_of (v / 3600)%Q l).
      rewrite list_lookup_fmap, Hl. by repeat split.
Qed.

(** ** C3: two simulations in one process *)






(** ** C4 and C5: adding vehicles *)

(** C4: [add_lert] reads the speed of [self.lerts[0]], which does not
    exist once the fleet is empty.  On a fleet with a first vehicle it
    appends an idle vehicle of that speed, numbered with the length of the
    fleet; on an empty fleet it raises [IndexError].  The empty fleet is
    reached from a fresh simulation by removing its 25 idle vehicles. *)
Theorem C4_add_lert_raises_on_empty_fleet :
  (∀ self,
     match lerts self with
     | [] => add_lert self = Raise IndexError
     | first :: _ =>
         add_lert self
         = Ok (set_lerts (lerts self ++
                 [Lert_init (length (lerts self)) (speed first)]) self,
               Added (length (lerts self)))
     end) ∧
  (st ← start 1; st ← run_calls (replicate 25 call_remove_lert) st;
   Ok (lerts st.1.2)) = Ok [] ∧
  (st ← start 1;
   run_calls (replicate 25 call_remove_lert ++ [call_add_lert]) st)
  = Raise IndexError.
Proof.
  split; [|split].
  - intros self. unfold add_lert. by destruct (lerts self).
  - vm_compute. reflexivity.
  - vm_compute. reflexivity.
Qed.

(** C5: the new id is the current length of the fleet.  After one removal
    and one addition on a fresh simulation two vehicles carry the id 24;
    after thirteen removals, the last of which takes out vehicle 12, the
    vehicle added next is numbered 12 again. *)
Theorem C5_ids_repeat_after_removal :
  (st ← start 1; st ← run_calls [call_remove_lert; call_add_lert] st;
   Ok (id <$> lerts st.1.2)) = Ok (seq 1 24 ++ [24]) ∧
  ¬ NoDup (seq 1 24 ++ [24]) ∧
  ∃ g s12 s13 s14 log,
    (st ← start 1; run_calls (replicate 12 call_remove_lert) st)
    = Ok (g, s12, log) ∧
    do_call call_remove_lert g s12 = Ok (g, s13, Some (Removed 12)) ∧
    do_call call_add_lert g s13 = Ok (g, s14, Some (Added 12)).
Proof.
  split; [vm_compute; reflexivity|]. split.
  - intros H. apply NoDup_app in H as (_ & H & _).
    apply (H 24); [apply elem_of_seq; lia | by left].
  - eexists _, _, _, _, _.
    split; [vm_compute; reflexivity|].
    split; vm_compute; reflexivity.
Qed.

(** ** C9: removing a vehicle *)




Lemma is_free_false (now : Q) (l : Lert) :
  is_free now l = false ↔ (now < next_free_time l)%Q.
Proof.
  unfold is_free. split.
  - intros H. apply Qnot_le_lt. intros Hle.
    apply Qle_bool_iff in Hle. congruence.
  - intros H. destruct (Qle_bool _ _) eqn:E; [|done].
    apply Qle_bool_iff in E. by apply Qlt_not_le in H.
Qed.



(** ** C6: what a dispatch does *)

Lemma pydiv_Ok (a b : Q) : ¬ (b == 0)%Q → pydiv a b = Ok (a / b)%Q.
Proof.
  intros Hb. unfold pydiv. destruct (Qeq_bool b 0) eqn:E; [|done].
  by apply Qeq_bool_iff in E.
Qed.

Lemma heappush_perm (q q' : list event) (e : event) :
  heappush q e = Ok q' → q' ≡ₚ e :: q.
Proof.
  intros H.
  apply (heappush_sound event_lt (λ _ _, True)) in H as [_ H]; done.
Qed.

Lemma heappop_perm (q q' : list event) (e : event) :
  heappop q = Ok (e, q') → q ≡ₚ e :: q' ∧ head q = Some e.
Proof.
  intros H.
  apply (heappop_sound event_lt (λ _ _, True)) in H as (_ & H & Hh & _);
    done.
Qed.



(** Scenario A through [run_step]: one vehicle of speed 25/3600, an
    arrival at time 0.6 with a pickup at 1.5: the completion is queued at
    0.6 + 432. *)
Example scenario_A :
  (s ← MetroSimulation_init one_vehicle 1;
   s ← run_step one_vehicle half_radius s;
   Ok ((λ e, (Qred (ev_time e), ev_type e, ev_request e))
         <$> event_queue s))
  = Ok [(Qred (12 / 10), arrival, None);
        (Qred (6 / 10 + 432), complete, Some 0)].
Proof. vm_compute. reflexivity. Qed.

(** The same scenario in the arithmetic of the source, IEEE 754 binary64:
    [1.5 / (25 / 3600) + 1.5 / (25 / 3600)] is 432 there too. *)
Example scenario_A_binary64 :
  (1.5 / (25 / 3600) + 1.5 / (25 / 3600) =? 432)%float = true.
Proof. vm_compute. reflexivity. Qed.

(** ** C10: leaving the scan early *)

Lemma find_free_same (now : Q) (l3 l4 : list Lert) :
  Forall2 same_vehicle l3 l4 →
  match list_find (λ l, is_free now l) l3,
        list_find (λ l, is_free now l) l4 with
  | Some (i, a), Some (j, b) => i = j ∧ same_vehicle a b
  | None, None => True
  | _, _ => False
  end.
Proof.
  induction 1 as [|a b l3 l4 Hab Hrest IH]; [done|]. cbn [list_find].
  assert (is_free now a = is_free now b) as Hf.
  { destruct Hab as [Hst _]. unfold vehicle_state in Hst.
    injection Hst as _ _ Hn _. unfold is_free. by rewrite Hn. }
  rewrite Hf. destruct (decide (is_free now b)); [done|].
  destruct (list_find _ l3) as [[i x]|], (list_find _ l4) as [[j y]|];
    try done.
  cbn. destruct IH as [-> ?]. done.
Qed.

Lemma dispatch_same (s3 s4 : MetroSimulation) (i li : nat) (a b : Lert) :
  same_run s3 s4 → same_vehicle a b →
  same_outcome (dispatch assign s3 i li a) (dispatch sim4.assign s4 i li b).
Proof.
  intros (Ht & Hq & Hr & Hc & Hw & Htt & Hl) [Hab _].
  unfold vehicle_state in Hab. injection Hab as Hid Hsp Hnf Htr.
  unfold dispatch. rewrite Hr.
  destruct (getitem (requests s4) i) as [r|e]; [|done]. rbind.
  unfold assign, sim4.assign. cbn [speed set_status]. rewrite Hsp.
  destruct (pydiv _ (speed b)) as [d|e]; [|done]. rbind.
  cbn [event_queue current_time set_requests set_lerts]. rewrite Hq, Ht.
  destruct (heappush _ _) as [q|e]; [|done]. rbind.
  repeat split;
    cbn [lerts requests current_time event_queue completed_requests
         total_wait_time total_travel_time
         set_event_queue set_requests set_lerts]; try done.
  - by rewrite Hr.
  - apply Forall2_insert; [done|]. split; [|by right].
    unfold vehicle_state. cbn. by rewrite Hid, Hsp, Htr.
Qed.

Lemma sim4_loop_no_free_vehicle (l : list nat) (self : MetroSimulation) :
  find_available_lert self = None →
  sim4.handle_requests_loop l self = Ok self.
Proof.
  intros Hnone. induction l as [|i l IH]; [done|].
  cbn [sim4.handle_requests_loop]. by rewrite Hnone.
Qed.

Lemma handle_requests_loop_same (l : list nat) : ∀ s3 s4,
  same_run s3 s4 →
  same_outcome (handle_requests_loop l s3) (sim4.handle_requests_loop l s4).
Proof.
  induction l as [|i l IH]; intros s3 s4 Hsame; [done|].
  cbn [handle_requests_loop sim4.handle_requests_loop].
  pose proof Hsame as (Ht & _ & _ & _ & _ & _ & Hl).
  pose proof (find_free_same (current_time s3) _ _ Hl) as Hfind.
  unfold find_available_lert. rewrite <- Ht.
  destruct (list_find _ (lerts s3)) as [[li a]|] eqn:H3,
           (list_find _ (lerts s4)) as [[lj b]|] eqn:H4; try done.
  - destruct Hfind as [<- Hab].
    pose proof (dispatch_same s3 s4 i li a b Hsame Hab) as Hd.
    destruct (dispatch assign s3 i li a) as [s3'|e3],
             (dispatch sim4.assign s4 i li b) as [s4'|e4]; try done.
    rbind. by apply IH.
  - rewrite sim4_loop_no_free_vehicle; [done|].
    unfold find_available_lert. by rewrite <- Ht.
Qed.

(** C10: on every object, the dispatch pass of [sim3.py], which leaves
    the scan at the first request without a free vehicle, and that of
    [sim4.py], which scans every pending request, either raise the same
    exception or return objects with the same requests (hence the same
    assignments), the same event queue (hence the same completions), the
    same clock and statistics, and, one by one, vehicles with the same
    id, speed, [next_free_time] and trip count.  (Of the attribute
    [status], written by [sim3.py] only and read by neither, the theorem
    says where it may differ: on the vehicles [sim3.py] has marked
    ['busy'].) *)
Theorem C10_early_exit_is_full_scan (self : MetroSimulation) :
  same_outcome (handle_requests self) (sim4.handle_requests self).
Proof.
  unfold handle_requests, sim4.handle_requests.
  apply handle_requests_loop_same. repeat (split; [done|]).
  apply Forall2_same_length_lookup. split; [done|].
  intros i a b Ha Hb. assert (a = b) as -> by congruence.
  split; [done | by left].
Qed.

(** The attribute [status] is where the two versions part: [sim3.py]
    marks the dispatched vehicle ['busy'], [sim4.py] leaves it as it
    was. *)
Example status_is_written_by_sim3_only :
  (s ← handle_requests
         (set_requests [Request_init 0 1.5 to_station]
            (quiet_sim [Lert_init 0 (25 / 3600)]));
   Ok (status <$> lerts s)) = Ok [busy] ∧
  (s ← sim4.handle_requests
         (set_requests [Request_init 0 1.5 to_station]
            (quiet_sim [Lert_init 0 (25 / 3600)]));
   Ok (status <$> lerts s)) = Ok [idle].
Proof. split; vm_compute; reflexivity. Qed.

(** ** Counting the events that carry a request *)

Lemma refs_to_cons (i : nat) (e : event) (q : list event) :
  refs_to i (e :: q)
  = (if decide (ev_request e = Some i) then 1 else 0) + refs_to i q.
Proof.
  unfold refs_to. rewrite filter_cons. by destruct (decide _).
Qed.

Lemma refs_to_app (i : nat) (q1 q2 : list event) :
  refs_to i (q1 ++ q2) = refs_to i q1 + refs_to i q2.
Proof. unfold refs_to. by rewrite filter_app, length_app. Qed.

Lemma refs_to_perm (i : nat) (q1 q2 : list event) :
  q1 ≡ₚ q2 → refs_to i q1 = refs_to i q2.
Proof. intros H. unfold refs_to. by rewrite H. Qed.

Lemma refs_to_zero (i : nat) (q : list event) :
  refs_to i q = 0 ↔ ∀ e, e ∈ q → ev_request e ≠ Some i.
Proof.
  induction q as [|e q IH].
  - split; [|done]. intros _ e He. by apply elem_of_nil in He.
  - rewrite refs_to_cons. split.
    + intros H e' He'. destruct (decide (ev_request e = Some i)); [lia|].
      apply elem_of_cons in He' as [->|He']; [done|].
      apply IH; [lia|done].
    + intros H. destruct (decide (ev_request e = Some i)) as [Heq|_].
      * by destruct (H e (list_elem_of_here _ _)).
      * cbn. apply IH. intros e' He'. apply H. by right.
Qed.

(** ** The pending requests and their order *)

Lemma insert_by_key_perm (key : nat → Q) (x : nat) (l : list nat) :
  insert_by_key key x l ≡ₚ x :: l.
Proof.
  induction l as [|y l IH]; [done|]. cbn [insert_by_key].
  destruct (Qlt_bool (key y) (key x)); [|done].
  rewrite IH. apply Permutation_swap.
Qed.

Lemma sort_by_key_perm (key : nat → Q) (l : list nat) :
  sort_by_key key l ≡ₚ l.
Proof.
  induction l as [|x l IH]; [done|]. cbn [sort_by_key foldr].
  rewrite insert_by_key_perm. by f_equiv.
Qed.

Lemma unassigned_requests_elem (self : MetroSimulation) (i : nat) :
  i ∈ unassigned_requests self ↔ is_unassigned self i = true.
Proof.
  unfold unassigned_requests. rewrite list_elem_of_filter, elem_of_seq.
  rewrite Is_true_true. split; [by intros [? _]|].
  intros H. split; [done|]. unfold is_unassigned in H.
  destruct (requests self !! i) eqn:Hi; [|done].
  apply lookup_lt_Some in Hi. lia.
Qed.

Lemma unassigned_requests_NoDup (self : MetroSimulation) :
  NoDup (unassigned_requests self).
Proof. apply NoDup_filter, NoDup_seq. Qed.

(** ** The invariant is kept by every method *)

Lemma req_ok_refs (now now' : Q) (q q' log log' : list event) (i : nat)
    (r : Request) :
  (now <= now')%Q →
  refs_to i q' = refs_to i q → refs_to i log' = refs_to i log →
  req_ok now q log i r → req_ok now' q' log' i r.
Proof.
  intros Hnow Hq Hlog (Hws & Ht & Hd & Hrest).
  split; [done|]. split; [lra|]. split; [done|].
  rewrite Hq, Hlog. exact Hrest.
Qed.

Lemma gap_nonneg (g : globals) (e gap : Q) :
  (0 < REQUEST_RATE g)%Q → (0 <= e)%Q →
  (if POISSON_REQUESTS g then
     let rate := REQUEST_RATE g in
     mean_inter_arrival ← pydiv 1 rate;
     np_random_exponential mean_inter_arrival e
   else pydiv 1 (REQUEST_RATE g)) = Ok gap →
  (0 <= gap)%Q.
Proof.
  intros Hrate He.
  assert (Hne : ¬ (REQUEST_RATE g == 0)%Q) by lra.
  assert (Hinv : (0 < 1 / REQUEST_RATE g)%Q).
  { apply Qlt_shift_div_l; lra. }
  destruct (POISSON_REQUESTS g); cbn zeta; rewrite (pydiv_Ok _ _ Hne).
  - rbind. unfold np_random_exponential.
    destruct (Qlt_bool _ 0); [done|]. intros [= <-].
    apply Qmult_le_0_compat; lra.
  - intros [= <-]. lra.
Qed.

Lemma schedule_inv (g : globals) (e : Q) (s s' : MetroSimulation)
    (log : list event) :
  sim_inv g s log → (0 <= e)%Q →
  schedule_next_request_arrival g e s (current_time s) = Ok s' →
  sim_inv g s' log ∧ current_time s' = current_time s ∧
  requests s' = requests s ∧ lerts s' = lerts s.
Proof.
  intros (Hrate & Hrad & Hheap & Hfut & Hspeed & Hreq & Hbound) He Hrun.
  unfold schedule_next_request_arrival in Hrun.
  apply bind_Ok in Hrun as (gap & Hgap & Hrun).
  apply gap_nonneg in Hgap; [|done..].
  apply bind_Ok in Hrun as (q & Hpush & [= <-]).
  apply heappush_queue in Hpush as [Hheap' Hperm]; [|done].
  split; [|done].
  split; [done|]. split; [done|]. split; [done|].
  cbn [event_queue current_time lerts requests set_event_queue].
  split; [|split; [done|split]].
  - rewrite Hperm. constructor; [cbn; lra | done].
  - intros i r Hr. eapply req_ok_refs; [..|by apply Hreq]; try done.
    + lra.
    + by rewrite (refs_to_perm _ _ _ Hperm), refs_to_cons.
  - intros ev i. rewrite Hperm. intros Hin Href.
    apply elem_of_cons in Hin as [->|Hin]; [done|]. by eapply Hbound.
Qed.

Lemma init_inv (g : globals) (e : Q) (s : MetroSimulation) :
  (0 < REQUEST_RATE g)%Q → (0 <= METRO_RADIUS g)%Q → (0 < LERT_SPEED g)%Q →
  (0 <= e)%Q →
  MetroSimulation_init g e = Ok s → sim_inv g s [].
Proof.
  intros Hrate Hrad Hv He Hrun. unfold MetroSimulation_init in Hrun.
  eapply (schedule_inv g e _ s []); [|exact He|exact Hrun].
  split; [done|]. split; [done|]. cbn.
  split; [apply heap_ok_nil|]. split; [constructor|].
  split; [|split].
  - apply Forall_fmap, Forall_forall. by intros i _.
  - intros i r Hr. by rewrite lookup_nil in Hr.
  - intros ev i Hin. by apply elem_of_nil in Hin.
Qed.

Lemma handle_arrival_inv (g : globals) (d : draws) (s s' : MetroSimulation)
    (log : list event) :
  sim_inv g s log → valid_draws d →
  handle_arrival_event g d s = Ok s' →
  sim_inv g s' log ∧ current_time s' = current_time s ∧
  (∀ j r, requests s !! j = Some r → requests s' !! j = Some r).
Proof.
  intros Hinv (Hu0 & Hu1 & He) Hrun. unfold handle_arrival_event in Hrun.
  pose proof Hinv as (Hrate & Hrad & Hheap & Hfut & Hspeed & Hreq & Hbound).
  apply (schedule_inv g _ _ _ log) in Hrun as (Hinv' & Ht & Hr & Hl);
    [|..|done].
  - split; [done|]. split; [done|].
    intros j r Hj. rewrite Hr. cbn. by apply lookup_app_l_Some.
  - split; [done|]. split; [done|].
    cbn [event_queue current_time lerts requests set_requests].
    split; [done|]. split; [done|]. split; [done|]. split.
    + intros i r Hi. apply lookup_app_Some in Hi as [Hi|[Hlen Hi]].
      * by apply Hreq.
      * apply list_lookup_singleton_Some in Hi as [Hi <-].
        assert (i = length (requests s)) as -> by lia.
        split; [done|]. split; [cbn; lra|]. split.
        { cbn. unfold np_random_uniform.
          assert (0 <= METRO_RADIUS g * uniform d)%Q
            by (apply Qmult_le_0_compat; lra). lra. }
        cbn. split.
        -- apply refs_to_zero. intros ev Hin Href.
           assert (ev ∈ event_queue s ++ log) as Hin'
             by (apply elem_of_app; by left).
           specialize (Hbound ev _ Hin' Href). lia.
        -- apply refs_to_zero. intros ev Hin Href.
           assert (ev ∈ event_queue s ++ log) as Hin'
             by (apply elem_of_app; by right).
           specialize (Hbound ev _ Hin' Href). lia.
    + intros ev i Hin Href. rewrite length_app. cbn.
      specialize (Hbound ev i Hin Href). lia.
Qed.

Lemma dispatch_inv (g : globals) (s s' : MetroSimulation) (log : list event)
    (i li : nat) (l : Lert) :
  sim_inv g s log → is_unassigned s i = true → lerts s !! li = Some l →
  dispatch assign s i li l = Ok s' →
  sim_inv g s' log ∧ current_time s' = current_time s ∧
  (∀ j, j ≠ i → requests s' !! j = requests s !! j).
Proof.
  intros (Hrate & Hrad & Hheap & Hfut & Hspeed & Hreq & Hbound) Hun Hl Hrun.
  unfold is_unassigned in Hun.
  destruct (requests s !! i) as [r|] eqn:Hr; [|done].
  apply negb_true_iff in Hun.
  pose proof (Hreq i r Hr) as (Hws & Ht & Hd & Hrefs). rewrite Hun in Hrefs.
  destruct Hrefs as [Hq0 Hlog0].
  pose proof (Forall_lookup_1 _ _ _ _ Hspeed Hl) as Hv. cbn beta in Hv.
  assert (Hne : ¬ (speed l == 0)%Q) by lra.
  assert (Hleg : (0 <= distance r / speed l)%Q).
  { apply Qle_shift_div_l; lra. }
  assert (Hpos : (0 < distance r)%Q → (0 < distance r / speed l)%Q).
  { intros Hdp. apply Qlt_shift_div_l; lra. }
  unfold dispatch in Hrun. rewrite (proj2 (getitem_Ok _ _ _) Hr) in Hrun.
  rbind in Hrun. unfold assign in Hrun.
  cbn [speed set_status distance set_assigned] in Hrun.
  rewrite (pydiv_Ok _ _ Hne) in Hrun. rbind in Hrun.
  cbn [current_time event_queue set_requests set_lerts] in Hrun.
  apply bind_Ok in Hrun as (q & Hpush & [= <-]).
  apply heappush_queue in Hpush as [Hheap' Hperm]; [|done].
  cbn [event_queue current_time lerts requests set_event_queue
       set_requests set_lerts].
  split; [|split; [done|]].
  - split; [done|]. split; [done|].
    cbn [event_queue current_time lerts requests set_event_queue
         set_requests set_lerts].
    split; [done|]. split; [|split; [|split]].
    + rewrite Hperm. constructor; [cbn; lra | done].
    + apply Forall_insert; [done|]. cbn. exact Hv.
    + intros j rj Hj. destruct (decide (j = i)) as [->|Hji].
      * rewrite list_lookup_insert_eq in Hj by (by eapply lookup_lt_Some).
        injection Hj as <-.
        split; [done|]. split; [done|]. split; [done|]. cbn.
        eexists _, _. split; [done|]. split; [done|].
        split; [done|]. split; [lra|]. split; [intros Hdp; specialize (Hpos Hdp); lra|].
        rewrite (refs_to_perm _ _ _ Hperm), refs_to_cons.
        cbn. rewrite decide_True by done. lia.
      * rewrite list_lookup_insert_ne in Hj by done.
        eapply req_ok_refs; [..|by apply Hreq]; try done; [lra|].
        rewrite (refs_to_perm _ _ _ Hperm), refs_to_cons. cbn.
        rewrite decide_False by congruence. done.
    + intros ev j. rewrite Hperm, length_insert. intros Hin Href.
      apply elem_of_cons in Hin as [->|Hin]; [|by eapply Hbound].
      injection Href as <-. by eapply lookup_lt_Some.
  - intros j Hji. by rewrite list_lookup_insert_ne.
Qed.

Lemma handle_requests_loop_inv (g : globals) (log : list event)
    (l : list nat) : ∀ s s',
  sim_inv g s log → NoDup l →
  (∀ i, i ∈ l → is_unassigned s i = true) →
  handle_requests_loop l s = Ok s' →
  sim_inv g s' log ∧ current_time s' = current_time s ∧
  (∀ j, j ∉ l → requests s' !! j = requests s !! j).
Proof.
  induction l as [|i l IH]; intros s s' Hinv Hnd Hun Hrun.
  - by injection Hrun as <-.
  - cbn [handle_requests_loop] in Hrun.
    destruct (find_available_lert s) as [[li v]|] eqn:Hfind;
      [|by injection Hrun as <-].
    apply list_find_Some in Hfind as (Hl & _ & _).
    apply bind_Ok in Hrun as (s1 & Hd & Hrun).
    apply NoDup_cons in Hnd as [Hi Hnd].
    apply (dispatch_inv g _ _ log) in Hd as (Hinv1 & Ht1 & Hr1);
      [|done|apply Hun; by left|done].
    apply IH in Hrun as (Hinv' & Ht' & Hr'); [|done..|].
    + split; [done|]. split; [congruence|].
      intros j Hj. apply not_elem_of_cons in Hj as [Hji Hj].
      rewrite Hr' by done. by apply Hr1.
    + intros j Hj. unfold is_unassigned. rewrite Hr1.
      * apply Hun. by right.
      * intros ->. done.
Qed.

Lemma handle_requests_inv (g : globals) (log : list event)
    (s s' : MetroSimulation) :
  sim_inv g s log → handle_requests s = Ok s' →
  sim_inv g s' log ∧ current_time s' = current_time s ∧
  (∀ j r, requests s !! j = Some r → assigned r = true →
          requests s' !! j = Some r).
Proof.
  intros Hinv Hrun. unfold handle_requests in Hrun.
  apply (handle_requests_loop_inv g log) in Hrun as (Hinv' & Ht & Hr);
    [|done|..].
  - split; [done|]. split; [done|]. intros j r Hj Ha.
    rewrite Hr; [done|]. rewrite sort_by_key_perm.
    rewrite unassigned_requests_elem. unfold is_unassigned.
    rewrite Hj, Ha. done.
  - rewrite sort_by_key_perm. apply unassigned_requests_NoDup.
  - intros i. rewrite sort_by_key_perm. apply unassigned_requests_elem.
Qed.

Lemma pop_inv (g : globals) (s : MetroSimulation) (log q' : list event)
    (ev : event) :
  sim_inv g s log → heappop (event_queue s) = Ok (ev, q') →
  sim_inv g (set_current_time (ev_time ev) (set_event_queue q' s))
          (log ++ [ev]) ∧
  (current_time s <= ev_time ev)%Q ∧ head (event_queue s) = Some ev.
Proof.
  intros (Hrate & Hrad & Hheap & Hfut & Hspeed & Hreq & Hbound) Hpop.
  apply heappop_queue in Hpop as (Hheap' & Hperm & Hhead & Hmin); [|done].
  assert (Hnow : (current_time s <= ev_time ev)%Q).
  { rewrite Hperm in Hfut. by apply Forall_cons in Hfut as [? _]. }
  split; [|done].
  split; [done|]. split; [done|].
  cbn [event_queue current_time lerts requests set_event_queue
       set_current_time].
  split; [done|]. split; [|split; [done|split]].
  - eapply Forall_impl; [exact Hmin|]. intros e. apply ev_le_time.
  - intros i r Hr. destruct (Hreq i r Hr) as (Hws & Ht & Hd & Hrefs).
    split; [done|]. split; [lra|]. split; [done|].
    rewrite (refs_to_perm _ _ _ Hperm), refs_to_cons in Hrefs.
    rewrite refs_to_app, refs_to_cons. unfold refs_to at 3. cbn [filter length].
    destruct (assigned r).
    + destruct Hrefs as (we & trav & ? & ? & ? & ? & ? & Hsum).
      exists we, trav. repeat (split; [done|]). cbn in *. lia.
    + destruct Hrefs as [Hq0 Hl0].
      destruct (decide (ev_request ev = Some i)); cbn in *; lia.
  - intros e i Hin Href.
    apply (Hbound e); [|done]. rewrite Hperm.
    apply elem_of_app. rewrite elem_of_cons.
    apply elem_of_app in Hin as [Hin|Hin]; [by left; right|].
    apply elem_of_app in Hin as [Hin|Hin]; [by right|].
    apply list_elem_of_singleton in Hin. by left; left.
Qed.

Lemma run_step_inv (g : globals) (d : draws) (s s' : MetroSimulation)
    (log : list event) :
  sim_inv g s log → valid_draws d → run_step g d s = Ok s' →
  sim_inv g s' (log ++ processed (call_run_step d) s) ∧
  (current_time s <= current_time s')%Q ∧
  (∀ j r, requests s !! j = Some r → assigned r = true →
          requests s' !! j = Some r).
Proof.
  intros Hinv Hd Hrun. unfold run_step in Hrun. cbn [processed].
  destruct (event_queue s) as [|e0 q0] eqn:Hq.
  { injection Hrun as <-. cbn. rewrite app_nil_r.
    split; [done|]. split; [lra|done]. }
  rewrite <- Hq in Hrun.
  apply bind_Ok in Hrun as ([ev q'] & Hpop & Hrun).
  apply (pop_inv g s log) in Hpop as (Hinv1 & Hnow & Hhead); [|done].
  rewrite Hq in Hhead. cbn in Hhead. injection Hhead as ->. cbn [head option_list].
  destruct ev as [[t ty] rq].
  apply bind_Ok in Hrun as (s2 & Hev & Hrun).
  assert (sim_inv g s2 (log ++ [(t, ty, rq)]) ∧
          current_time s2 = t ∧
          ∀ j r, requests s !! j = Some r → requests s2 !! j = Some r)
    as (Hinv2 & Ht2 & Hr2).
  { destruct ty.
    - apply (handle_arrival_inv g d _ _ (log ++ [(t, arrival, rq)]))
        in Hev as (? & ? & ?); done.
    - unfold handle_complete_event in Hev.
      destruct rq as [i|]; [|done].
      apply bind_Ok in Hev as (r & _ & Hev).
      destruct (wait_end r), (travel_time r); try done.
      by injection Hev as <-. }
  apply (handle_requests_inv g (log ++ [(t, ty, rq)]) s2 s') in Hrun
    as (Hinv' & Ht' & Hr'); [|done].
  split; [done|]. split.
  - rewrite Ht', Ht2. exact Hnow.
  - intros j r Hj Ha. apply Hr'; [|done]. by apply Hr2.
Qed.

Lemma do_call_inv (c : call) (g g' : globals) (s s' : MetroSimulation)
    (log : list event) (o : option output) :
  sim_inv g s log → positive_call c → do_call c g s = Ok (g', s', o) →
  sim_inv g' s' (log ++ processed c s) ∧
  (current_time s <= current_time s')%Q ∧
  (∀ j r, requests s !! j = Some r → assigned r = true →
          requests s' !! j = Some r).
Proof.
  intros Hinv Hc Hrun. destruct c as [d| | |r|v]; cbn in Hrun, Hc.
  - apply bind_Ok in Hrun as (s1 & Hstep & [= <- <- _]).
    by apply run_step_inv.
  - apply bind_Ok in Hrun as ([s1 o1] & Hadd & [= <- <- _]).
    cbn [processed]. rewrite app_nil_r.
    unfold add_lert in Hadd.
    apply bind_Ok in Hadd as (first & Hfirst & [= <- _]).
    apply getitem_Ok in Hfirst.
    destruct Hinv as (? & ? & ? & ? & Hspeed & ? & ?).
    split; [|split; [cbn; lra|done]].
    repeat (split; [done|]). split; [|done]. cbn.
    apply Forall_app. split; [done|]. apply Forall_singleton. cbn.
    exact (Forall_lookup_1 _ _ _ _ Hspeed Hfirst).
  - cbn [processed]. rewrite app_nil_r.
    unfold remove_lert in Hrun.
    destruct Hinv as (? & ? & ? & ? & Hspeed & ? & ?).
    destruct (idle_lerts s) as [|i rest];
      [injection Hrun as <- <- _; split; [|split; [lra|done]];
       by repeat (split; [done|])|].
    destruct (lerts s !! i) as [l|];
      [|injection Hrun as <- <- _; split; [|split; [lra|done]];
        by repeat (split; [done|])].
    injection Hrun as <- <- _.
    split; [|split; [cbn; lra|done]].
    repeat (split; [done|]). split; [|done]. cbn.
    by apply Forall_delete.
  - injection Hrun as <- <- _. cbn [processed]. rewrite app_nil_r.
    destruct Hinv as (? & ? & ? & ? & Hspeed & ? & ?).
    split; [|split; [lra|done]].
    split; [|by repeat (split; [done|])].
    cbn. apply Qlt_shift_div_l; lra.
  - injection Hrun as <- <- _. cbn [processed]. rewrite app_nil_r.
    destruct Hinv as (? & ? & ? & ? & Hspeed & ? & ?).
    split; [|split; [cbn; lra|done]].
    repeat (split; [done|]). split; [|done]. cbn.
    apply Forall_fmap, Forall_forall. intros l _. cbn.
    apply Qlt_shift_div_l; lra.
Qed.

Lemma run_calls_inv (cs : list call) : ∀ g s log g' s' log',
  sim_inv g s log → Forall positive_call cs →
  run_calls cs (g, s, log) = Ok (g', s', log') →
  sim_inv g' s' log'.
Proof.
  induction cs as [|c cs IH]; intros g s log g' s' log' Hinv Hcs Hrun.
  - by injection Hrun as <- <- <-.
  - apply Forall_cons in Hcs as [Hc Hcs]. cbn [run_calls] in Hrun.
    apply bind_Ok in Hrun as ([[g1 s1] o] & Hdo & Hrun).
    apply (do_call_inv c g g1 s s1 log) in Hdo as (Hinv1 & _ & _);
      [|done..].
    by eapply IH.
Qed.

Lemma start_inv (e : Q) (st : run_state) :
  (0 <= e)%Q → start e = Ok st → sim_inv st.1.1 st.1.2 st.2.
Proof.
  intros He Hrun. unfold start in Hrun.
  apply bind_Ok in Hrun as (s & Hinit & [= <-]). cbn.
  apply (init_inv module_globals e); [by cbn..|done|done].
Qed.

(** ** C7: the clock *)

Lemma dispatch_time (s s' : MetroSimulation) (i li : nat) (l : Lert) :
  dispatch assign s i li l = Ok s' → current_time s' = current_time s.
Proof.
  intros Hrun. unfold dispatch in Hrun.
  apply bind_Ok in Hrun as (r & _ & Hrun).
  apply bind_Ok in Hrun as ([[l' r'] d] & _ & Hrun).
  by apply bind_Ok in Hrun as (q & _ & [= <-]).
Qed.

Lemma handle_requests_loop_time (l : list nat) : ∀ s s',
  handle_requests_loop l s = Ok s' → current_time s' = current_time s.
Proof.
  induction l as [|i l IH]; intros s s' Hrun.
  - by injection Hrun as <-.
  - cbn [handle_requests_loop] in Hrun.
    destruct (find_available_lert s) as [[li v]|];
      [|by injection Hrun as <-].
    apply bind_Ok in Hrun as (s1 & Hd & Hrun).
    apply IH in Hrun. apply dispatch_time in Hd. congruence.
Qed.

(** A step either finds the queue empty and does nothing, or moves the
    clock to the time of the event at the head of the heap. *)
Lemma run_step_time (g : globals) (d : draws) (s s' : MetroSimulation) :
  run_step g d s = Ok s' →
  (event_queue s = [] ∧ s' = s) ∨
  (∃ ev, head (event_queue s) = Some ev ∧ current_time s' = ev_time ev).
Proof.
  intros Hrun. unfold run_step in Hrun.
  destruct (event_queue s) as [|e0 q0] eqn:Hq.
  { left. by injection Hrun as <-. }
  right. rewrite <- Hq in Hrun.
  apply bind_Ok in Hrun as ([ev q'] & Hpop & Hrun).
  apply heappop_perm in Hpop as [_ Hhead]. rewrite Hq in Hhead.
  exists ev. split; [done|].
  destruct ev as [[t ty] rq].
  apply bind_Ok in Hrun as (s2 & Hev & Hrun).
  unfold handle_requests in Hrun. apply handle_requests_loop_time in Hrun.
  rewrite Hrun. destruct ty.
  - unfold handle_arrival_event, schedule_next_request_arrival in Hev.
    apply bind_Ok in Hev as (gap & _ & Hev).
    by apply bind_Ok in Hev as (q & _ & [= <-]).
  - unfold handle_complete_event in Hev.
    destruct rq as [i|]; [|done].
    apply bind_Ok in Hev as (r & _ & Hev).
    destruct (wait_end r), (travel_time r); try done.
    by injection Hev as <-.
Qed.


(** C7, as stated, fails: [set_speed] accepts a negative speed, and a
    trip at negative speed ends before it starts.  After
    [set_speed(-25)], the step at time 0.6 dispatches the new request and
    queues its completion at 0.6 - 432; the next step sets the clock back
    to that time. *)
Lemma C7_clock_set_back_after_negative_speed :
  ∃ g s log s',
    (st ← start 1;
     run_calls [call_set_speed (-25); call_run_step half_radius] st)
    = Ok (g, s, log) ∧
    ¬ Forall (λ ev, (current_time s <= ev_time ev)%Q) (event_queue s) ∧
    run_step g half_radius s = Ok s' ∧
    (current_time s' < current_time s)%Q.
Proof.
  eexists _, _, _, _.
  split; [vm_compute; reflexivity|]. split; [|split].
  - intros H. apply Forall_cons in H as [H _]. vm_compute in H. by apply H.
  - vm_compute. reflexivity.
  - reflexivity.
Qed.

(** C7, amended: in a run from a fresh simulation in which the setters
    were only given positive values (and the random samples are in the
    range of their generators), every state reached has all the events of
    its queue at or after [current_time], and a further step from it
    never decreases [current_time]. *)
Theorem C7_clock_monotone_with_positive_settings (e0 : Q) (cs : list call)
    (g : globals) (s : MetroSimulation) (log : list event) :
  (0 <= e0)%Q → Forall positive_call cs →
  (st ← start e0; run_calls cs st) = Ok (g, s, log) →
  Forall (λ ev, (current_time s <= ev_time ev)%Q) (event_queue s) ∧
  ∀ d s', run_step g d s = Ok s' → (current_time s <= current_time s')%Q.
Proof.
  intros He Hcs Hrun.
  apply bind_Ok in Hrun as ([[g0 s0] log0] & Hstart & Hrun).
  apply start_inv in Hstart; [|done]. cbn in Hstart.
  apply run_calls_inv in Hrun; [|done..].
  pose proof Hrun as (_ & _ & _ & Hfut & _).
  split; [done|]. intros d s' Hstep.
  apply run_step_time in Hstep as [[_ ->]|(ev & Hhead & ->)]; [lra|].
  destruct (event_queue s) as [|e q]; [done|].
  injection Hhead as ->. by apply Forall_cons in Hfut as [? _].
Qed.

Lemma C7_clock_monotone_with_positive_settings_witness :
  ∃ g s log s',
    (st ← start 1;
     run_calls [call_set_speed 30; call_run_step half_radius] st)
    = Ok (g, s, log) ∧
    run_step g half_radius s = Ok s' ∧
    (current_time s <= current_time s')%Q.
Proof.
  eexists _, _, _, _.
  split; [vm_compute; reflexivity|].
  split; [vm_compute; reflexivity|].
  refine (proj2 (C7_clock_monotone_with_positive_settings 1
            [call_set_speed 30; call_run_step half_radius] _ _ _ _ _ _)
            half_radius _ _).
  - vm_compute. discriminate.
  - repeat constructor; vm_compute; congruence.
  - vm_compute. reflexivity.
  - vm_compute. reflexivity.
Defined.

(** ** C8: completed requests *)

(** C8, as stated, fails on the duration.  A pickup distance of 0 is in
    the range of the generator, and its service lasts 0: with the first
    request drawn at the station, its completion is processed and its
    recorded duration is not positive.  And [set_speed] accepts a negative
    speed: after [set_speed(-25)] the first request, picked up at 1.5, is
    completed with a negative duration. *)
Lemma C8_completed_with_duration_not_positive :
  (∃ g s log t r trav,
     (st ← start 1;
      run_calls [call_run_step at_station; call_run_step at_station] st)
     = Ok (g, s, log) ∧
     log !! 1 = Some (t, complete, Some 0) ∧
     requests s !! 0 = Some r ∧
     (distance r == 0)%Q ∧
     travel_time r = Some trav ∧
     ¬ (0 < trav)%Q) ∧
  (∃ g s log t r trav,
     (st ← start 1;
      run_calls [call_set_speed (-25); call_run_step half_radius;
                 call_run_step half_radius] st)
     = Ok (g, s, log) ∧
     log !! 1 = Some (t, complete, Some 0) ∧
     requests s !! 0 = Some r ∧
     travel_time r = Some trav ∧
     (trav == -432)%Q).
Proof.
  split.
  - eexists _, _, _, _, _, _.
    split; [vm_compute; reflexivity|].
    split; [vm_compute; reflexivity|].
    split; [vm_compute; reflexivity|].
    split; [reflexivity|].
    split; [vm_compute; reflexivity|].
    vm_compute. discriminate.
  - eexists _, _, _, _, _, _.
    split; [vm_compute; reflexivity|].
    split; [vm_compute; reflexivity|].
    split; [vm_compute; reflexivity|].
    split; [vm_compute; reflexivity|].
    reflexivity.
Qed.

(** C8, amended: in a run from a fresh simulation in which the setters
    were only given positive values (and the random samples are in the
    range of their generators), every request whose completion has been
    processed is assigned, its service began at or after its creation
    and its duration is not negative, and positive whenever its pickup
    distance is; its completion is the only event that ever carried it
    and is not in the queue any more; and no further call changes the
    request: it stays assigned, with the same start and duration. *)
Theorem C8_completed_requests_with_positive_settings (e0 : Q)
    (cs : list call) (g : globals) (s : MetroSimulation)
    (log : list event) :
  (0 <= e0)%Q → Forall positive_call cs →
  (st ← start e0; run_calls cs st) = Ok (g, s, log) →
  ∀ t i, (t, complete, Some i) ∈ log →
    ∃ r we trav,
      requests s !! i = Some r ∧ assigned r = true ∧
      wait_start r = time r ∧
      wait_end r = Some we ∧ travel_time r = Some trav ∧
      (time r <= we)%Q ∧ (0 <= trav)%Q ∧
      ((0 < distance r)%Q → (0 < trav)%Q) ∧
      refs_to i log = 1 ∧ refs_to i (event_queue s) = 0 ∧
      ∀ c g' s' o, positive_call c → do_call c g s = Ok (g', s', o) →
                   requests s' !! i = Some r.
Proof.
  intros He Hcs Hrun t i Hin.
  apply bind_Ok in Hrun as ([[g0 s0] log0] & Hstart & Hrun).
  apply start_inv in Hstart; [|done]. cbn in Hstart.
  apply run_calls_inv in Hrun; [|done..].
  pose proof Hrun as (_ & _ & _ & _ & _ & Hreq & Hbound).
  assert (Hi : i < length (requests s)).
  { apply (Hbound (t, complete, Some i)); [|done].
    apply elem_of_app. by right. }
  apply lookup_lt_is_Some in Hi as [r Hr].
  destruct (Hreq i r Hr) as (Hws & Ht & Hd & Hrefs).
  assert (Hlog : refs_to i log ≠ 0).
  { intros H0. by apply (proj1 (refs_to_zero i log) H0 _ Hin). }
  destruct (assigned r) eqn:Ha; [|lia].
  destruct Hrefs as (we & trav & Hwe & Htr & Hle & H0 & Hpos & Hsum).
  exists r, we, trav. repeat (split; [done || lia|]).
  intros c g' s' o Hc Hdo.
  apply (do_call_inv c g g' s s' log) in Hdo as (_ & _ & Hfrozen);
    [|done..].
  by apply Hfrozen.
Qed.

Lemma C8_completed_requests_with_positive_settings_witness :
  ∃ g s log t r,
    (st ← start 1;
     run_calls [call_run_step at_station; call_run_step at_station] st)
    = Ok (g, s, log) ∧
    log !! 1 = Some (t, complete, Some 0) ∧
    requests s !! 0 = Some r ∧ assigned r = true ∧ refs_to 0 log = 1.
Proof.
  eexists _, _, _, _.
  destruct (C8_completed_requests_with_positive_settings 1
              [call_run_step at_station; call_run_step at_station]
              _ _ _ ltac:(vm_compute; discriminate)
              ltac:(repeat constructor; vm_compute; congruence)
              ltac:(vm_compute; reflexivity)
              _ 0 ltac:(right; left))
    as (r & we & trav & Hr & Ha & _ & _ & _ & _ & _ & _ & Hlog & _).
  exists r.
  split; [vm_compute; reflexivity|].
  split; [vm_compute; reflexivity|].
  split; [exact Hr|]. split; [exact Ha | exact Hlog].
Defined.

(** * Further properties of the code *)

(** ** The dispatch pass *)

Lemma dispatch_requests (asg : Lert → Q → Request → result (Lert * Request * Q))
    (s s' : MetroSimulation) (i li : nat) (l : Lert) :
  (∀ v now r v' r' d, asg v now r = Ok (v', r', d) →
                      assigned r' = assigned r) →
  dispatch asg s i li l = Ok s' →
  (∃ r r', requests s !! i = Some r ∧ requests s' !! i = Some r' ∧
           assigned r' = true) ∧
  (∀ j, j ≠ i → requests s' !! j = requests s !! j) ∧
  current_time s' = current_time s.
Proof.
  intros Hasg Hrun. unfold dispatch in Hrun.
  apply bind_Ok in Hrun as (r & Hr & Hrun). apply getitem_Ok in Hr.
  apply bind_Ok in Hrun as ([[l' r'] d] & Ha & Hrun).
  apply bind_Ok in Hrun as (q & _ & [= <-]).
  apply Hasg in Ha. cbn in Ha.
  cbn [requests current_time set_event_queue set_requests set_lerts].
  split; [|split; [|done]].
  - exists r, r'. split; [done|]. split; [|done].
    apply list_lookup_insert_eq. by eapply lookup_lt_Some.
  - intros j Hj. by rewrite list_lookup_insert_ne.
Qed.

Lemma assign_keeps_assigned (v : Lert) (now : Q) (r : Request) (v' : Lert)
    (r' : Request) (d : Q) :
  assign v now r = Ok (v', r', d) → assigned r' = assigned r.
Proof.
  unfold assign. intros H.
  apply bind_Ok in H as (a & _ & H). apply bind_Ok in H as (b & _ & H).
  by injection H as _ <- _.
Qed.

Lemma handle_requests_loop_prefix (l : list nat) : ∀ s s',
  handle_requests_loop l s = Ok s' →
  current_time s' = current_time s ∧
  ∃ l1 l2,
    l = l1 ++ l2 ∧
    (l2 = [] ∨ find_available_lert s' = None) ∧
    (∀ x, x ∈ l1 → is_unassigned s' x = false) ∧
    (∀ x, x ∉ l1 → requests s' !! x = requests s !! x).
Proof.
  induction l as [|i l IH]; intros s s' Hrun.
  - injection Hrun as <-. split; [done|]. exists [], [].
    split; [done|]. split; [by left|]. split; [|done].
    intros x Hx. by apply elem_of_nil in Hx.
  - cbn [handle_requests_loop] in Hrun.
    destruct (find_available_lert s) as [[li v]|] eqn:Hfind.
    + apply bind_Ok in Hrun as (s1 & Hd & Hrun).
      apply (dispatch_requests assign) in Hd
        as ((r & r' & Hr & Hr' & Ha) & Hother & Ht);
        [|apply assign_keeps_assigned].
      apply IH in Hrun as (Ht' & l1 & l2 & -> & Hend & Hdone & Hrest).
      split; [congruence|].
      exists (i :: l1), l2. split; [done|]. split; [done|]. split.
      * intros x Hx. apply elem_of_cons in Hx as [->|Hx]; [|by apply Hdone].
        destruct (decide (i ∈ l1)) as [Hin|Hnin]; [by apply Hdone|].
        unfold is_unassigned. rewrite (Hrest i Hnin), Hr'. by rewrite Ha.
      * intros x Hx. apply not_elem_of_cons in Hx as [Hxi Hx].
        rewrite (Hrest x Hx). by apply Hother.
    + injection Hrun as <-. split; [done|]. exists [], (i :: l).
      split; [done|]. split; [by right|]. split; [|done].
      intros x Hx. by apply elem_of_nil in Hx.
Qed.

(** After a dispatch pass no request is left pending, or no vehicle is
    left free: the pass never stops while a pending request and a free
    vehicle remain. *)
Theorem handle_requests_leaves_no_match (s s' : MetroSimulation) :
  handle_requests s = Ok s' →
  Forall (λ r, assigned r = true) (requests s') ∨
  Forall (λ l, (current_time s' < next_free_time l)%Q) (lerts s').
Proof.
  intros Hrun. unfold handle_requests in Hrun.
  pose proof (handle_requests_loop_prefix _ _ _ Hrun)
    as (Ht & l1 & l2 & Hl & [->|Hnone] & Hdone & Hrest).
  - left. rewrite app_nil_r in Hl. apply Forall_lookup. intros i r Hr.
    destruct (assigned r) eqn:Ha; [done|].
    destruct (decide (i ∈ l1)) as [Hin|Hnin].
    + specialize (Hdone i Hin). unfold is_unassigned in Hdone.
      rewrite Hr, Ha in Hdone. done.
    + rewrite (Hrest i Hnin) in Hr.
      assert (i ∈ l1) as Hin; [|done].
      rewrite <- Hl, sort_by_key_perm. apply unassigned_requests_elem.
      unfold is_unassigned. by rewrite Hr, Ha.
  - right. apply list_find_None in Hnone.
    eapply Forall_impl; [exact Hnone|]. intros l Hl'. apply is_free_false.
    by apply Is_true_false in Hl'.
Qed.

Lemma handle_requests_leaves_no_match_witness :
  ∃ s',
    handle_requests
      (set_requests [Request_init 0 1.5 to_station;
                     Request_init 0 1 from_station]
         (quiet_sim [Lert_init 0 (25 / 3600)])) = Ok s' ∧
    assigned <$> requests s' = [true; false] ∧
    Forall (λ l, (current_time s' < next_free_time l)%Q) (lerts s').
Proof.
  eexists. split; [vm_compute; reflexivity|]. split; [reflexivity|].
  destruct (handle_requests_leaves_no_match
              (set_requests [Request_init 0 1.5 to_station;
                             Request_init 0 1 from_station]
                 (quiet_sim [Lert_init 0 (25 / 3600)])) _
              ltac:(vm_compute; reflexivity)) as [H|H]; [|exact H].
  apply Forall_cons in H as [_ H]. apply Forall_cons in H as [H _].
  discriminate H.
Defined.

Lemma insert_by_key_sorted (key : nat → Q) (x : nat) (l : list nat) :
  sorted_by key l → sorted_by key (insert_by_key key x l).
Proof.
  induction l as [|y l IH]; intros Hs; [by split|].
  destruct Hs as [Hy Hs]. cbn [insert_by_key].
  destruct (Qlt_bool (key y) (key x)) eqn:Hlt.
  - apply Qlt_bool_true in Hlt. split; [|by apply IH].
    rewrite insert_by_key_perm. constructor; [lra | done].
  - apply Qlt_bool_false in Hlt. split; [|by split].
    constructor; [done|].
    eapply Forall_impl; [exact Hy|]. intros z Hz. cbn in Hz. lra.
Qed.

Lemma sort_by_key_sorted (key : nat → Q) (l : list nat) :
  sorted_by key (sort_by_key key l).
Proof.
  induction l as [|x l IH]; [done|]. by apply insert_by_key_sorted.
Qed.

Lemma sorted_by_app (key : nat → Q) (l1 l2 : list nat) (x y : nat) :
  sorted_by key (l1 ++ l2) → x ∈ l1 → y ∈ l2 → (key x <= key y)%Q.
Proof.
  induction l1 as [|z l1 IH]; intros Hs Hx Hy.
  - by apply elem_of_nil in Hx.
  - destruct Hs as [Hz Hs]. apply elem_of_cons in Hx as [->|Hx].
    + apply Forall_app in Hz as [_ Hz].
      by apply (proj1 (Forall_forall _ _) Hz).
    + by apply IH.
Qed.

(** The dispatch pass serves the oldest requests first: a request that
    the pass has assigned was created no later than any request the pass
    has left pending. *)
Theorem handle_requests_oldest_first (s s' : MetroSimulation) (i j : nat)
    (ri rj ri' rj' : Request) :
  handle_requests s = Ok s' →
  requests s !! i = Some ri → assigned ri = false →
  requests s !! j = Some rj →
  requests s' !! i = Some ri' → assigned ri' = true →
  requests s' !! j = Some rj' → assigned rj' = false →
  (time ri <= time rj)%Q.
Proof.
  intros Hrun Hi Hai Hj Hi' Hai' Hj' Haj'. unfold handle_requests in Hrun.
  pose proof (handle_requests_loop_prefix _ _ _ Hrun)
    as (_ & l1 & l2 & Hl & _ & Hdone & Hrest).
  assert (Hil : i ∈ l1).
  { destruct (decide (i ∈ l1)) as [|Hnin]; [done|].
    rewrite (Hrest i Hnin) in Hi'. congruence. }
  assert (Hjl : j ∉ l1).
  { intros Hin. specialize (Hdone j Hin). unfold is_unassigned in Hdone.
    rewrite Hj', Haj' in Hdone. done. }
  assert (Hj2 : j ∈ l2).
  { rewrite (Hrest j Hjl) in Hj'.
    assert (j ∈ l1 ++ l2) as Hin.
    - rewrite <- Hl, sort_by_key_perm. apply unassigned_requests_elem.
      unfold is_unassigned. rewrite Hj'. by rewrite Haj'.
    - apply elem_of_app in Hin as [|]; done. }
  pose proof (sort_by_key_sorted (request_time s) (unassigned_requests s))
    as Hsorted. rewrite Hl in Hsorted.
  pose proof (sorted_by_app _ _ _ i j Hsorted Hil Hj2) as Hle.
  unfold request_time in Hle. by rewrite Hi, Hj in Hle.
Qed.

Lemma handle_requests_oldest_first_witness :
  ∃ s',
    handle_requests
      (set_requests [Request_init 7 1 to_station;
                     Request_init 3 1 from_station]
         (quiet_sim [Lert_init 0 (25 / 3600)])) = Ok s' ∧
    assigned <$> requests s' = [false; true] ∧ (3 <= 7)%Q.
Proof.
  eexists. split; [vm_compute; reflexivity|]. split; [reflexivity|].
  refine (handle_requests_oldest_first
            (set_requests [Request_init 7 1 to_station;
                           Request_init 3 1 from_station]
               (quiet_sim [Lert_init 0 (25 / 3600)]))
            _ 1 0 (Request_init 3 1 from_station)
            (Request_init 7 1 to_station) _ _ _ _ _ _ _ _ _ _);
    [vm_compute; reflexivity | reflexivity | reflexivity | reflexivity
    | reflexivity | reflexivity | reflexivity | reflexivity].
Defined.

(** ** The books are kept by every method *)

Lemma count_type_cons (ty : event_type) (e : event) (l : list event) :
  count_type ty (e :: l)
  = (if decide (ev_type e = ty) then 1 else 0) + count_type ty l.
Proof.
  unfold count_type. rewrite filter_cons. by destruct (decide _).
Qed.

Lemma count_type_app (ty : event_type) (l1 l2 : list event) :
  count_type ty (l1 ++ l2) = count_type ty l1 + count_type ty l2.
Proof. unfold count_type. by rewrite filter_app, length_app. Qed.

Lemma count_type_perm (ty : event_type) (l1 l2 : list event) :
  l1 ≡ₚ l2 → count_type ty l1 = count_type ty l2.
Proof. intros H. unfold count_type. by rewrite H. Qed.

Lemma count_type_pos (ty : event_type) (l : list event) :
  0 < count_type ty l → l ≠ [].
Proof. intros H ->. cbn in H. lia. Qed.

Lemma assigned_count_snoc (rs : list Request) (r : Request) :
  assigned_count (rs ++ [r])
  = assigned_count rs + (if assigned r then 1 else 0).
Proof.
  unfold assigned_count. rewrite fmap_app, sum_list_with_app. cbn. lia.
Qed.

Lemma assigned_count_insert (rs : list Request) (i : nat) (r r' : Request) :
  rs !! i = Some r → assigned r = false → assigned r' = true →
  assigned_count (<[i := r']> rs) = S (assigned_count rs).
Proof.
  intros Hi Ha Ha'. unfold assigned_count.
  rewrite <- (take_drop_middle rs i r Hi) at 2.
  rewrite insert_take_drop by (by eapply lookup_lt_Some).
  rewrite !fmap_app, !sum_list_with_app, !fmap_cons.
  rewrite Ha, Ha'. simpl. lia.
Qed.

Lemma ev_shape_mono (n m : nat) (e : event) :
  n ≤ m → ev_shape n e → ev_shape m e.
Proof.
  intros Hnm. unfold ev_shape. destruct (ev_type e); [done|].
  intros (i & Hi & Hlt). exists i. split; [done | lia].
Qed.

Lemma ev_shape_ref (n i : nat) (e : event) :
  ev_shape n e → ev_request e = Some i → ev_type e = complete ∧ i < n.
Proof.
  unfold ev_shape. intros Hs Hr. destruct (ev_type e).
  - congruence.
  - destruct Hs as (j & Hj & Hlt). split; [done|]. congruence.
Qed.

Lemma assign_Ok (v v' : Lert) (now d : Q) (r r' : Request) :
  assign v now r = Ok (v', r', d) →
  v' = set_trip (now + d)%Q (set_status busy v) ∧ r' = set_service now d r.
Proof.
  unfold assign. intros H.
  apply bind_Ok in H as (a & _ & H). apply bind_Ok in H as (b & _ & H).
  by injection H as <- <- <-.
Qed.

Lemma schedule_Ok (g : globals) (e now : Q) (s s' : MetroSimulation) :
  schedule_next_request_arrival g e s now = Ok s' →
  ∃ gap q, s' = set_event_queue q s ∧
           q ≡ₚ ((now + gap)%Q, arrival, None) :: event_queue s.
Proof.
  intros Hrun. unfold schedule_next_request_arrival in Hrun.
  apply bind_Ok in Hrun as (gap & _ & Hrun).
  apply bind_Ok in Hrun as (q & Hq & [= <-]).
  exists gap, q. split; [done|]. by apply heappush_perm.
Qed.

Lemma dispatch_Ok (s s' : MetroSimulation) (i li : nat) (l : Lert) :
  dispatch assign s i li l = Ok s' →
  ∃ r d q,
    requests s !! i = Some r ∧
    q ≡ₚ ((current_time s + d)%Q, complete, Some i) :: event_queue s ∧
    s' = set_event_queue q
           (set_requests
              (<[i := set_service (current_time s) d (set_assigned true r)]>
                 (requests s))
              (set_lerts
                 (<[li := set_trip (current_time s + d)%Q
                            (set_status busy l)]> (lerts s)) s)).
Proof.
  intros Hrun. unfold dispatch in Hrun.
  apply bind_Ok in Hrun as (r & Hr & Hrun). apply getitem_Ok in Hr.
  apply bind_Ok in Hrun as ([[l' r'] d] & Ha & Hrun).
  apply assign_Ok in Ha as [-> ->].
  apply bind_Ok in Hrun as (q & Hq & [= <-]).
  exists r, d, q. split; [done|]. split; [|done].
  by apply heappush_perm in Hq.
Qed.

Lemma dispatch_book (s s' : MetroSimulation) (log : list event)
    (i li : nat) (l : Lert) :
  book_inv s log → is_unassigned s i = true →
  dispatch assign s i li l = Ok s' →
  book_inv s' log.
Proof.
  intros (Hshape & Harr & Hreqs & Hdone & Hcount & Hper) Hun Hrun.
  apply dispatch_Ok in Hrun as (r & d & q & Hr & Hperm & ->).
  unfold is_unassigned in Hun. rewrite Hr in Hun.
  apply negb_true_iff in Hun.
  pose proof (lookup_lt_Some _ _ _ Hr) as Hlt.
  unfold book_inv.
  cbn [event_queue requests completed_requests set_event_queue
       set_requests set_lerts].
  rewrite length_insert.
  split; [|split; [|split; [done|split; [done|split]]]].
  - rewrite Hperm. cbn. constructor; [|done]. cbn. eauto.
  - by rewrite (count_type_perm _ _ _ Hperm), count_type_cons.
  - rewrite (assigned_count_insert _ _ r) by done.
    rewrite (count_type_perm _ _ _ Hperm), count_type_cons. cbn.
    rewrite decide_True by done. lia.
  - intros j rj Hj. rewrite (refs_to_perm _ _ _ Hperm), refs_to_cons. cbn.
    destruct (decide (j = i)) as [->|Hji].
    + rewrite list_lookup_insert_eq in Hj by done. injection Hj as <-.
      cbn. rewrite decide_True by done.
      specialize (Hper i r Hr). rewrite Hun in Hper.
      split; [by eexists|]. split; [by eexists|]. lia.
    + rewrite list_lookup_insert_ne in Hj by done.
      rewrite decide_False by congruence. by apply Hper.
Qed.

Lemma handle_requests_loop_book (log : list event) (l : list nat) : ∀ s s',
  book_inv s log → NoDup l →
  (∀ i, i ∈ l → is_unassigned s i = true) →
  handle_requests_loop l s = Ok s' → book_inv s' log.
Proof.
  induction l as [|i l IH]; intros s s' Hinv Hnd Hun Hrun.
  - by injection Hrun as <-.
  - cbn [handle_requests_loop] in Hrun.
    destruct (find_available_lert s) as [[li v]|];
      [|by injection Hrun as <-].
    apply bind_Ok in Hrun as (s1 & Hd & Hrun).
    apply NoDup_cons in Hnd as [Hi Hnd].
    pose proof (dispatch_book s s1 log i li v Hinv
                  (Hun i (list_elem_of_here _ _)) Hd) as Hinv1.
    apply (dispatch_requests assign) in Hd as (_ & Hother & _);
      [|apply assign_keeps_assigned].
    apply (IH s1); [done..| |done].
    intros j Hj. unfold is_unassigned. rewrite Hother.
    + apply Hun. by right.
    + intros ->. done.
Qed.

Lemma handle_requests_book (log : list event) (s s' : MetroSimulation) :
  book_inv s log → handle_requests s = Ok s' → book_inv s' log.
Proof.
  intros Hinv Hrun. unfold handle_requests in Hrun.
  apply (handle_requests_loop_book log) in Hrun; [done..| |].
  - rewrite sort_by_key_perm. apply unassigned_requests_NoDup.
  - intros i. rewrite sort_by_key_perm. apply unassigned_requests_elem.
Qed.

Lemma handle_arrival_Ok (g : globals) (d : draws) (s s' : MetroSimulation) :
  handle_arrival_event g d s = Ok s' →
  ∃ (req : Request) (gap : Q) (q : list event),
    assigned req = false ∧
    q ≡ₚ ((current_time s + gap)%Q, arrival, None) :: event_queue s ∧
    s' = set_event_queue q (set_requests (requests s ++ [req]) s).
Proof.
  intros Hrun. unfold handle_arrival_event in Hrun.
  apply schedule_Ok in Hrun as (gap & q & -> & Hperm).
  eexists _, gap, q. split; [|split; [exact Hperm|done]]. done.
Qed.

Lemma handle_complete_Ok (s s' : MetroSimulation) (rq : option nat) :
  handle_complete_event s rq = Ok s' →
  ∃ w t, s' = set_stats (completed_requests s + 1) w t s.
Proof.
  intros Hrun. unfold handle_complete_event in Hrun.
  destruct rq as [i|]; [|done].
  apply bind_Ok in Hrun as (r & _ & Hrun).
  destruct (wait_end r), (travel_time r); try done.
  injection Hrun as <-. eauto.
Qed.

Lemma run_step_book (g : globals) (d : draws) (s s' : MetroSimulation)
    (log : list event) :
  book_inv s log → run_step g d s = Ok s' →
  book_inv s' (log ++ processed (call_run_step d) s).
Proof.
  intros Hinv Hrun. unfold run_step in Hrun. cbn [processed].
  pose proof Hinv as (Hshape & Harr & Hreqs & Hdone & Hcount & Hper).
  destruct (event_queue s) as [|e0 q0] eqn:Hq; [done|].
  rewrite <- Hq in Hrun, Hshape, Hcount, Hper.
  apply bind_Ok in Hrun as ([ev q'] & Hpop & Hrun).
  apply heappop_perm in Hpop as [Hperm Hhead].
  rewrite Hq in Hhead. cbn in Hhead. injection Hhead as ->.
  change (option_list (head (ev :: q0))) with [ev]. rewrite <- Hq in Harr.
  assert (Hev : ev_shape (length (requests s)) ev).
  { apply (proj1 (Forall_forall _ _) Hshape).
    rewrite Hperm. apply elem_of_app. left. by left. }
  rewrite (count_type_perm arrival _ _ Hperm), count_type_cons in Harr.
  rewrite (count_type_perm complete _ _ Hperm), count_type_cons in Hcount.
  destruct ev as [[t ty] rq].
  apply bind_Ok in Hrun as (s2 & Hev2 & Hrun).
  apply (handle_requests_book _ s2); [|done]. clear Hrun s'.
  unfold ev_shape in Hev. cbn [ev_type ev_request fst snd] in *.
  destruct ty.
  - (* an arrival *)
    apply handle_arrival_Ok in Hev2 as (req & gap & q2 & Hreq & Hp2 & ->).
    cbn [event_queue set_current_time set_event_queue] in Hp2.
    subst rq. rewrite decide_True in Harr by done.
    rewrite decide_False in Hcount by done.
    unfold book_inv.
    cbn [event_queue requests completed_requests set_event_queue
         set_requests set_current_time].
    rewrite length_app. cbn [length].
    split; [|split; [|split; [|split; [|split]]]].
    + rewrite Hp2. apply Forall_forall. intros e He.
      apply elem_of_cons in He as [->|He]; [done|].
      apply (ev_shape_mono (length (requests s))); [lia|].
      apply (proj1 (Forall_forall _ _) Hshape). rewrite Hperm.
      apply elem_of_app in He as [He|He].
      * apply elem_of_app. left. by right.
      * apply elem_of_app in He as [He|He].
        -- apply elem_of_app. by right.
        -- apply list_elem_of_singleton in He as ->.
           apply elem_of_app. left. by left.
    + rewrite (count_type_perm _ _ _ Hp2), count_type_cons. cbn.
      rewrite decide_True by done. lia.
    + rewrite count_type_app, count_type_cons. cbn.
      rewrite decide_True by done. cbn. lia.
    + rewrite count_type_app, count_type_cons. cbn.
      rewrite decide_False by done. cbn. lia.
    + rewrite assigned_count_snoc, Hreq.
      rewrite (count_type_perm _ _ _ Hp2), !count_type_cons, count_type_app,
        count_type_cons. cbn. rewrite !decide_False by done. cbn. lia.
    + intros i r Hi.
      rewrite (refs_to_perm _ _ _ Hp2), refs_to_cons, refs_to_app,
        refs_to_cons. cbn.
      apply lookup_app_Some in Hi as [Hi|[Hlen Hi]].
      * specialize (Hper i r Hi).
        rewrite (refs_to_perm _ _ _ Hperm), refs_to_cons in Hper.
        cbn in Hper.
        rewrite !(decide_False (P := None = Some i)) in Hper |- * by done.
        destruct (assigned r).
        -- destruct Hper as (? & ? & ?). repeat (split; [done|]). lia.
        -- lia.
      * apply list_lookup_singleton_Some in Hi as [Hi <-]. rewrite Hreq.
        assert (∀ l, Forall (ev_shape (length (requests s))) l →
                     refs_to i l = 0) as Hzero.
        { intros l Hl. apply refs_to_zero. intros e He Href.
          apply (proj1 (Forall_forall _ _) Hl) in He.
          apply (ev_shape_ref _ i) in He as [_ He]; [lia|done]. }
        apply Forall_app in Hshape as [Hs1 Hs2]. rewrite Hperm in Hs1.
        apply Forall_cons in Hs1 as [_ Hs1].
        rewrite (Hzero _ Hs1), (Hzero _ Hs2).
        rewrite !(decide_False (P := None = Some i)) by done. done.
  - (* a completion *)
    destruct Hev as (i & -> & Hi).
    apply handle_complete_Ok in Hev2 as (w & tr & ->).
    rewrite decide_False in Harr by done.
    rewrite decide_True in Hcount by done.
    unfold book_inv.
    cbn [event_queue requests completed_requests set_event_queue
         set_stats set_current_time].
    split; [|split; [|split; [|split; [|split]]]].
    + apply Forall_forall. intros e He.
      apply (proj1 (Forall_forall _ _) Hshape). rewrite Hperm.
      apply elem_of_app in He as [He|He].
      * apply elem_of_app. left. by right.
      * apply elem_of_app in He as [He|He].
        -- apply elem_of_app. by right.
        -- apply list_elem_of_singleton in He as ->.
           apply elem_of_app. left. by left.
    + cbn in Harr. lia.
    + rewrite count_type_app, count_type_cons. cbn.
      rewrite decide_False by done. cbn. lia.
    + rewrite count_type_app, count_type_cons. cbn.
      rewrite decide_True by done. cbn. lia.
    + rewrite count_type_app, count_type_cons. cbn.
      rewrite decide_True by done. cbn. lia.
    + intros j r Hj. specialize (Hper j r Hj).
      rewrite (refs_to_perm _ _ _ Hperm), refs_to_cons in Hper.
      rewrite refs_to_app, refs_to_cons. cbn in *.
      destruct (assigned r).
      * destruct Hper as (? & ? & ?). repeat (split; [done|]). lia.
      * destruct (decide (Some i = Some j)); cbn in *; lia.
Qed.

Lemma do_call_book (c : call) (g g' : globals) (s s' : MetroSimulation)
    (log : list event) (o : option output) :
  book_inv s log → do_call c g s = Ok (g', s', o) →
  book_inv s' (log ++ processed c s).
Proof.
  intros Hinv Hrun. destruct c as [d| | |r|v]; cbn in Hrun.
  - apply bind_Ok in Hrun as (s1 & Hstep & [= _ <- _]).
    by eapply run_step_book.
  - apply bind_Ok in Hrun as ([s1 o1] & Hadd & [= _ <- _]).
    cbn [processed]. rewrite app_nil_r. unfold add_lert in Hadd.
    by apply bind_Ok in Hadd as (first & _ & [= <- _]).
  - cbn [processed]. rewrite app_nil_r. unfold remove_lert in Hrun.
    destruct (idle_lerts s) as [|i rest]; [by injection Hrun as _ <- _|].
    destruct (lerts s !! i); by injection Hrun as _ <- _.
  - injection Hrun as _ <- _. cbn [processed]. by rewrite app_nil_r.
  - injection Hrun as _ <- _. cbn [processed]. by rewrite app_nil_r.
Qed.

Lemma run_calls_book (cs : list call) : ∀ g s log g' s' log',
  book_inv s log → run_calls cs (g, s, log) = Ok (g', s', log') →
  book_inv s' log'.
Proof.
  induction cs as [|c cs IH]; intros g s log g' s' log' Hinv Hrun.
  - by injection Hrun as _ <- <-.
  - cbn [run_calls] in Hrun.
    apply bind_Ok in Hrun as ([[g1 s1] o] & Hdo & Hrun).
    apply (do_call_book c g g1 s s1 log) in Hdo; [|done].
    by eapply IH.
Qed.

Lemma init_book (g : globals) (e : Q) (s : MetroSimulation) :
  MetroSimulation_init g e = Ok s → book_inv s [].
Proof.
  intros Hrun. unfold MetroSimulation_init in Hrun.
  apply schedule_Ok in Hrun as (gap & q & -> & Hperm).
  cbn [event_queue] in Hperm. unfold book_inv.
  cbn [event_queue requests completed_requests set_event_queue].
  rewrite app_nil_r.
  split; [|split; [|split; [done|split; [done|split]]]].
  - rewrite Hperm. by repeat constructor.
  - by rewrite (count_type_perm _ _ _ Hperm).
  - by rewrite (count_type_perm _ _ _ Hperm).
  - intros i r Hi. by rewrite lookup_nil in Hi.
Qed.

Lemma run_book (e0 : Q) (cs : list call) (g : globals)
    (s : MetroSimulation) (log : list event) :
  (st ← start e0; run_calls cs st) = Ok (g, s, log) → book_inv s log.
Proof.
  intros Hrun.
  apply bind_Ok in Hrun as ([[g0 s0] log0] & Hstart & Hrun).
  unfold start in Hstart.
  apply bind_Ok in Hstart as (s1 & Hinit & [= <- <- <-]).
  apply init_book in Hinit. by eapply run_calls_book.
Qed.

(** ** The arrival chain, the counters and the statistics *)

(** In every state a run from a fresh simulation reaches, exactly one
    arrival is pending in the queue: each arrival processed has scheduled
    its successor, whatever else happened.  In particular the queue is
    never empty, and [run_step] always has an event to process. *)
Theorem arrival_chain_never_dies (e0 : Q) (cs : list call) (g : globals)
    (s : MetroSimulation) (log : list event) :
  (st ← start e0; run_calls cs st) = Ok (g, s, log) →
  count_type arrival (event_queue s) = 1 ∧ event_queue s ≠ [].
Proof.
  intros Hrun. apply run_book in Hrun as (_ & Harr & _).
  split; [done|]. apply (count_type_pos arrival). lia.
Qed.

Lemma arrival_chain_never_dies_witness :
  ∃ g s log,
    (st ← start 1;
     run_calls [call_run_step half_radius; call_remove_lert;
                call_run_step at_station] st) = Ok (g, s, log) ∧
    count_type arrival (event_queue s) = 1.
Proof.
  eexists _, _, _. split; [vm_compute; reflexivity|].
  exact (proj1 (arrival_chain_never_dies 1
                  [call_run_step half_radius; call_remove_lert;
                   call_run_step at_station] _ _ _
                  ltac:(vm_compute; reflexivity))).
Defined.

(** The counters agree with what was processed: in every state of a run,
    [completed_requests] is the number of completions processed so far
    and [len(requests)] the number of arrivals processed so far. *)
Theorem counters_match_processed_events (e0 : Q) (cs : list call)
    (g : globals) (s : MetroSimulation) (log : list event) :
  (st ← start e0; run_calls cs st) = Ok (g, s, log) →
  completed_requests s = count_type complete log ∧
  length (requests s) = count_type arrival log.
Proof.
  intros Hrun. apply run_book in Hrun as (_ & _ & Hreqs & Hdone & _).
  by split.
Qed.

Lemma counters_match_processed_events_witness :
  ∃ g s log,
    (st ← start 1;
     run_calls [call_run_step at_station; call_run_step at_station] st)
    = Ok (g, s, log) ∧
    completed_requests s = 1 ∧ length (requests s) = 1.
Proof.
  eexists _, _, _. split; [vm_compute; reflexivity|].
  exact (counters_match_processed_events 1
           [call_run_step at_station; call_run_step at_station] _ _ _
           ltac:(vm_compute; reflexivity)).
Defined.

Lemma pydiv_int_Ok (a : Q) (n : nat) :
  0 < n → pydiv_int a n = Ok (a / inject_Z (Z.of_nat n))%Q.
Proof.
  intros Hn. unfold pydiv_int. apply pydiv_Ok.
  intros H. unfold Qeq in H. cbn in H. lia.
Qed.

Lemma pending_plus_assigned (rs : list Request) :
  sum_list ((λ r, if negb (assigned r) then 1 else 0) <$> rs)
  + assigned_count rs = length rs.
Proof.
  unfold assigned_count. induction rs as [|r rs IH]; [done|].
  cbn. destruct (assigned r); cbn; lia.
Qed.

Lemma get_stats_Ok (s : MetroSimulation) :
  ∃ st, get_stats s = Ok st ∧
        stats_time st = current_time s ∧
        stats_completed_requests st = completed_requests s ∧
        queue_length st + assigned_count (requests s)
        = length (requests s) ∧
        (completed_requests s = 0 →
         avg_wait_time st = 0%Q ∧ avg_travel_time st = 0%Q) ∧
        (0 < completed_requests s →
         avg_wait_time st
         = (total_wait_time s
            / inject_Z (Z.of_nat (completed_requests s)))%Q ∧
         avg_travel_time st
         = (total_travel_time s
            / inject_Z (Z.of_nat (completed_requests s)))%Q).
Proof.
  unfold get_stats. destruct (0 <? completed_requests s) eqn:Hn.
  - apply Nat.ltb_lt in Hn. rewrite !pydiv_int_Ok by done. rbind.
    eexists. split; [done|]. cbn.
    repeat split; try done; try lia. apply pending_plus_assigned.
  - apply Nat.ltb_ge in Hn. rbind. eexists. split; [done|]. cbn.
    repeat split; try done; try lia. apply pending_plus_assigned.
Qed.

(** Every request is accounted for: in every state of a run, [get_stats]
    returns, and the requests created so far are those it reports as
    queued, those whose completion is in the event queue, and those it
    reports as completed. *)
Theorem every_request_is_accounted_for (e0 : Q) (cs : list call)
    (g : globals) (s : MetroSimulation) (log : list event) :
  (st ← start e0; run_calls cs st) = Ok (g, s, log) →
  ∃ st, get_stats s = Ok st ∧
        length (requests s)
        = queue_length st + count_type complete (event_queue s)
          + stats_completed_requests st.
Proof.
  intros Hrun. apply run_book in Hrun as (_ & _ & _ & Hdone & Hcount & _).
  destruct (get_stats_Ok s) as (st & Hst & _ & Hc & Hq & _).
  exists st. split; [done|]. lia.
Qed.

Lemma every_request_is_accounted_for_witness :
  ∃ g s log st,
    (st ← start 1;
     run_calls [call_run_step at_station; call_run_step at_station;
                call_run_step half_radius] st) = Ok (g, s, log) ∧
    get_stats s = Ok st ∧
    length (requests s) = 2 ∧ queue_length st = 0 ∧
    stats_completed_requests st = 1.
Proof.
  eexists _, _, _, _. split; [vm_compute; reflexivity|].
  destruct (every_request_is_accounted_for 1
              [call_run_step at_station; call_run_step at_station;
               call_run_step half_radius] _ _ _
              ltac:(vm_compute; reflexivity)) as (st & Hst & _).
  split; [vm_compute; reflexivity|].
  split; [reflexivity|]. split; reflexivity.
Defined.

(** ** [run_until] *)

Lemma run_until_steps (ds : list draws) (end_time : Q) (g : globals) :
  ∀ s log s',
    book_inv s log →
    run_until ds g s end_time = Ok (Some s') →
    (end_time <= current_time s')%Q ∧
    ∃ k log', k ≤ length ds ∧
      run_calls (call_run_step <$> take k ds) (g, s, log)
      = Ok (g, s', log').
Proof.
  induction ds as [|d ds IH]; intros s log s' Hinv Hrun; cbn [run_until] in Hrun.
  - destruct (negb _ && _) eqn:Hc; [done|]. injection Hrun as <-.
    split; [|exists 0, log; split; [cbn; lia | reflexivity]].
    destruct Hinv as (_ & Harr & _).
    apply andb_false_iff in Hc as [Hc|Hc].
    + apply negb_false_iff, bool_decide_eq_true in Hc.
      rewrite Hc in Harr. done.
    + by apply Qlt_bool_false.
  - destruct (negb _ && _) eqn:Hc.
    + apply bind_Ok in Hrun as (s1 & Hstep & Hrun).
      pose proof (run_step_book g d s s1 log Hinv Hstep) as Hinv1.
      apply (IH _ _ _ Hinv1) in Hrun as (Hend & k & log' & Hk & Hcalls).
      split; [done|]. exists (S k), log'. split; [cbn; lia|].
      cbn [take fmap list_fmap run_calls do_call]. rewrite Hstep. rbind.
      exact Hcalls.
    + injection Hrun as <-. split; [|exists 0, log; split; [cbn; lia | reflexivity]].
      destruct Hinv as (_ & Harr & _).
      apply andb_false_iff in Hc as [Hc|Hc].
      * apply negb_false_iff, bool_decide_eq_true in Hc.
        rewrite Hc in Harr. done.
      * by apply Qlt_bool_false.
Qed.

(** When [run_until(end_time)], called in a state of a run, returns, the
    clock has reached [end_time]: the loop never leaves because the queue
    is empty.  What it has done is a number of steps. *)
Theorem run_until_reaches_end_time (e0 : Q) (cs : list call) (g : globals)
    (s s' : MetroSimulation) (log : list event) (ds : list draws)
    (end_time : Q) :
  (st ← start e0; run_calls cs st) = Ok (g, s, log) →
  run_until ds g s end_time = Ok (Some s') →
  (end_time <= current_time s')%Q ∧
  ∃ k log', k ≤ length ds ∧
    run_calls (call_run_step <$> take k ds) (g, s, log) = Ok (g, s', log').
Proof.
  intros Hrun. apply run_book in Hrun. by apply run_until_steps.
Qed.

Lemma run_until_reaches_end_time_witness :
  ∃ g s log s',
    (st ← start 1; run_calls [] st) = Ok (g, s, log) ∧
    run_until [half_radius; half_radius; half_radius] g s 1
    = Ok (Some s') ∧
    (1 <= current_time s')%Q.
Proof.
  eexists _, _, _, _. split; [vm_compute; reflexivity|].
  split; [vm_compute; reflexivity|].
  exact (proj1 (run_until_reaches_end_time 1 [] _ _ _ _
                  [half_radius; half_radius; half_radius] 1
                  ltac:(vm_compute; reflexivity)
                  ltac:(vm_compute; reflexivity))).
Defined.

(** ** [sim4.py] and [sim3.py], step by step *)

Lemma sort_by_key_ext (k1 k2 : nat → Q) (l : list nat) :
  (∀ i, k1 i = k2 i) → sort_by_key k1 l = sort_by_key k2 l.
Proof.
  intros Hk. induction l as [|x l IH]; [done|].
  cbn [sort_by_key foldr]. fold (sort_by_key k1 l) (sort_by_key k2 l).
  rewrite IH. generalize (sort_by_key k2 l). intros m.
  induction m as [|y m IHm]; [done|]. cbn [insert_by_key].
  by rewrite !Hk, IHm.
Qed.

Lemma handle_requests_same (s3 s4 : MetroSimulation) :
  same_run s3 s4 →
  same_outcome (handle_requests s3) (sim4.handle_requests s4).
Proof.
  intros Hsame. pose proof Hsame as (_ & _ & Hr & _).
  unfold handle_requests, sim4.handle_requests.
  assert (unassigned_requests s3 = unassigned_requests s4) as ->.
  { unfold unassigned_requests, is_unassigned. by rewrite Hr. }
  rewrite (sort_by_key_ext (request_time s3) (request_time s4)).
  - by apply handle_requests_loop_same.
  - intros i. unfold request_time. by rewrite Hr.
Qed.

Lemma handle_arrival_same (g : globals) (d : draws)
    (s3 s4 : MetroSimulation) :
  same_run s3 s4 →
  same_outcome (handle_arrival_event g d s3) (handle_arrival_event g d s4).
Proof.
  intros (Ht & Hq & Hr & Hc & Hw & Htt & Hl).
  unfold handle_arrival_event, schedule_next_request_arrival.
  cbn [event_queue current_time set_requests]. rewrite Ht, Hq, Hr.
  destruct (if POISSON_REQUESTS g then _ else _) as [gap|e]; [|done].
  rbind. destruct (heappush _ _) as [q|e]; [|done]. rbind.
  by repeat split.
Qed.

Lemma handle_complete_same (s3 s4 : MetroSimulation) (rq : option nat) :
  same_run s3 s4 →
  same_outcome (handle_complete_event s3 rq) (handle_complete_event s4 rq).
Proof.
  intros (Ht & Hq & Hr & Hc & Hw & Htt & Hl).
  unfold handle_complete_event. destruct rq as [i|]; [|done].
  rewrite Hr. destruct (getitem (requests s4) i) as [r|e]; [|done]. rbind.
  destruct (wait_end r), (travel_time r); try done.
  rewrite Hc, Hw, Htt. by repeat split.
Qed.

Lemma run_step_same (g : globals) (d : draws) (s3 s4 : MetroSimulation) :
  same_run s3 s4 →
  same_outcome (run_step g d s3) (sim4.run_step g d s4).
Proof.
  intros Hsame. pose proof Hsame as (Ht & Hq & Hr & Hc & Hw & Htt & Hl).
  unfold run_step, sim4.run_step. rewrite Hq.
  destruct (event_queue s4) as [|e0 q0] eqn:Hq4; [done|].
  destruct (heappop (e0 :: q0)) as [[[[t ty] rq] q]|e]; [|done]. rbind.
  assert (same_run (set_current_time t (set_event_queue q s3))
                   (set_current_time t (set_event_queue q s4))) as Hsame1
    by (by repeat split).
  assert (same_outcome
            (match ty with
             | arrival =>
                 handle_arrival_event g d
                   (set_current_time t (set_event_queue q s3))
             | complete =>
                 handle_complete_event
                   (set_current_time t (set_event_queue q s3)) rq
             end)
            (match ty with
             | arrival =>
                 handle_arrival_event g d
                   (set_current_time t (set_event_queue q s4))
             | complete =>
                 handle_complete_event
                   (set_current_time t (set_event_queue q s4)) rq
             end)) as Hev.
  { destruct ty; [by apply handle_arrival_same|by apply handle_complete_same]. }
  destruct (match ty with arrival => _ | complete => _ end) as [a|ea],
           (match ty with arrival => _ | complete => _ end) as [b|eb];
    try done.
  rbind. by apply handle_requests_same.
Qed.

Lemma run_until_same (ds : list draws) (g : globals) (end_time : Q) :
  ∀ s3 s4, same_run s3 s4 →
  same_loop_outcome (run_until ds g s3 end_time)
                    (sim4.run_until ds g s4 end_time).
Proof.
  induction ds as [|d ds IH]; intros s3 s4 Hsame;
    pose proof Hsame as (Ht & Hq & _);
    cbn [run_until sim4.run_until]; rewrite Ht, Hq;
    destruct (negb _ && _); try done.
  pose proof (run_step_same g d s3 s4 Hsame) as Hstep.
  destruct (run_step g d s3) as [a|ea], (sim4.run_step g d s4) as [b|eb];
    try done.
  rbind. by apply IH.
Qed.

Lemma same_run_refl (s : MetroSimulation) : same_run s s.
Proof.
  repeat (split; [done|]).
  apply Forall2_same_length_lookup. split; [done|].
  intros i a b Ha Hb. assert (a = b) as -> by congruence.
  split; [done | by left].
Qed.

(** The engines of [sim3.py] and [sim4.py] run alike: from the same
    object and with the same random samples, [run_until] of the one and
    of the other raise the same exception, or are both still running, or
    return objects with the same clock, queue, requests, statistics and
    vehicle states; and so does a single [run_step]. *)
Theorem sim4_runs_like_sim3 (ds : list draws) (g : globals)
    (s : MetroSimulation) (end_time : Q) :
  same_loop_outcome (run_until ds g s end_time)
                    (sim4.run_until ds g s end_time) ∧
  ∀ d, same_outcome (run_step g d s) (sim4.run_step g d s).
Proof.
  split.
  - apply run_until_same, same_run_refl.
  - intros d. apply run_step_same, same_run_refl.
Qed.

(** ** The fleet buttons of [sim4.py] *)

Lemma sim4_dispatch_ids (s s' : MetroSimulation) (i li : nat) (l : Lert) :
  lerts s !! li = Some l →
  dispatch sim4.assign s i li l = Ok s' →
  id <$> lerts s' = id <$> lerts s.
Proof.
  intros Hl Hrun. unfold dispatch in Hrun.
  apply bind_Ok in Hrun as (r & _ & Hrun).
  apply bind_Ok in Hrun as ([[l' r'] d] & Ha & Hrun).
  apply bind_Ok in Hrun as (q & _ & [= <-]).
  unfold sim4.assign in Ha.
  apply bind_Ok in Ha as (a & _ & Ha). apply bind_Ok in Ha as (b & _ & Ha).
  injection Ha as <- _ _.
  cbn [lerts set_event_queue set_requests set_lerts].
  rewrite list_fmap_insert. cbn. apply list_insert_id.
  by rewrite list_lookup_fmap, Hl.
Qed.

Lemma sim4_loop_ids (l : list nat) : ∀ s s',
  sim4.handle_requests_loop l s = Ok s' →
  id <$> lerts s' = id <$> lerts s.
Proof.
  induction l as [|i l IH]; intros s s' Hrun.
  - by injection Hrun as <-.
  - cbn [sim4.handle_requests_loop] in Hrun.
    destruct (find_available_lert s) as [[li v]|] eqn:Hfind; [|by apply IH].
    apply list_find_Some in Hfind as (Hl & _).
    apply bind_Ok in Hrun as (s1 & Hd & Hrun).
    apply IH in Hrun. apply sim4_dispatch_ids in Hd; [|done]. congruence.
Qed.

Lemma sim4_run_step_ids (g : globals) (d : draws) (s s' : MetroSimulation) :
  sim4.run_step g d s = Ok s' → id <$> lerts s' = id <$> lerts s.
Proof.
  intros Hrun. unfold sim4.run_step in Hrun.
  destruct (event_queue s) as [|e0 q0]; [by injection Hrun as <-|].
  apply bind_Ok in Hrun as ([[[t ty] rq] q] & _ & Hrun).
  apply bind_Ok in Hrun as (s2 & Hev & Hrun).
  unfold sim4.handle_requests in Hrun. apply sim4_loop_ids in Hrun.
  rewrite Hrun. destruct ty.
  - by apply handle_arrival_Ok in Hev as (? & ? & ? & _ & _ & ->).
  - by apply handle_complete_Ok in Hev as (? & ? & ->).
Qed.

Lemma sim4_run_until_ids (ds : list draws) (g : globals) (end_time : Q) :
  ∀ s s', sim4.run_until ds g s end_time = Ok (Some s') →
          id <$> lerts s' = id <$> lerts s.
Proof.
  induction ds as [|d ds IH]; intros s s' Hrun;
    cbn [sim4.run_until] in Hrun; destruct (negb _ && _);
    try done; try (by injection Hrun as <-).
  apply bind_Ok in Hrun as (s1 & Hstep & Hrun).
  apply IH in Hrun. apply sim4_run_step_ids in Hstep. congruence.
Qed.

Lemma ids_are_positions_same_ids (s s' : MetroSimulation) :
  id <$> lerts s' = id <$> lerts s →
  ids_are_positions s → ids_are_positions s'.
Proof.
  unfold ids_are_positions. intros Hids Hs.
  rewrite Hids, Hs. f_equal.
  by rewrite <- (length_fmap id (lerts s')), Hids, length_fmap.
Qed.

(** In [sim4.py] the vehicle at each position of the fleet is numbered
    with that position, so that ids are pairwise distinct: this holds in
    a fresh simulation and is kept by the two fleet buttons, by
    [run_step] and by the [run_until] of [update_display]. *)
Theorem sim4_ids_are_positions :
  (∀ g e s, MetroSimulation_init g e = Ok s → ids_are_positions s) ∧
  (∀ g s, ids_are_positions s → ids_are_positions (sim4.gui_add_lert g s)) ∧
  (∀ s, ids_are_positions s → ids_are_positions (sim4.gui_remove_lert s)) ∧
  (∀ g d s s', ids_are_positions s → sim4.run_step g d s = Ok s' →
               ids_are_positions s') ∧
  (∀ ds g s s', ids_are_positions s →
                sim4.update_display ds g s = Ok (Some s') →
                ids_are_positions s') ∧
  (∀ s, ids_are_positions s → NoDup (id <$> lerts s)).
Proof.
  unfold ids_are_positions. repeat split.
  - intros g e s Hrun. unfold MetroSimulation_init in Hrun.
    apply schedule_Ok in Hrun as (gap & q & -> & _). cbn.
    rewrite length_fmap, length_seq, <- list_fmap_compose.
    apply list_eq. intros i. rewrite list_lookup_fmap.
    by destruct (seq 0 (INITIAL_LERT_COUNT g) !! i).
  - intros g s Hs. unfold sim4.gui_add_lert. cbn.
    rewrite fmap_app, length_app, Hs. cbn.
    by rewrite Nat.add_1_r, seq_S.
  - intros s Hs. unfold sim4.gui_remove_lert.
    destruct (0 <? length (lerts s)) eqn:Hn; [|done]. cbn.
    rewrite fmap_take, Hs, length_take.
    apply Nat.ltb_lt in Hn.
    replace (length (lerts s)) with (S (length (lerts s) - 1)) at 2 by lia.
    rewrite seq_S, take_app_length'; [|by rewrite length_seq].
    f_equal. lia.
  - intros g d s s' Hs Hrun. apply sim4_run_step_ids in Hrun.
    by apply (ids_are_positions_same_ids s).
  - intros ds g s s' Hs Hrun. apply sim4_run_until_ids in Hrun.
    by apply (ids_are_positions_same_ids s).
  - intros s ->. apply NoDup_seq.
Qed.

Lemma sim4_ids_are_positions_witness :
  ids_are_positions
    (sim4.gui_add_lert module_globals
       (sim4.gui_remove_lert
          (quiet_sim [Lert_init 0 1; Lert_init 1 1; Lert_init 2 1]))).
Proof.
  apply (proj1 (proj2 sim4_ids_are_positions)).
  apply (proj1 (proj2 (proj2 sim4_ids_are_positions))).
  reflexivity.
Defined.

(** The Remove button of [sim4.py] takes the last vehicle off the fleet,
    busy or not, and does nothing on an empty fleet; pressed after the Add
    button it gives back the object as it was. *)
Theorem sim4_remove_takes_the_last_vehicle (g : globals)
    (s : MetroSimulation) :
  (∀ ls l, lerts s = ls ++ [l] → sim4.gui_remove_lert s = set_lerts ls s) ∧
  (lerts s = [] → sim4.gui_remove_lert s = s) ∧
  sim4.gui_remove_lert (sim4.gui_add_lert g s) = s.
Proof.
  split; [|split].
  - intros ls l Hl. unfold sim4.gui_remove_lert. rewrite Hl, length_app.
    cbn [length]. rewrite Nat.add_1_r. cbn [Nat.ltb Nat.leb].
    replace (S (length ls) - 1) with (length ls) by lia.
    by rewrite take_app_length.
  - intros Hl. unfold sim4.gui_remove_lert. by rewrite Hl.
  - unfold sim4.gui_remove_lert, sim4.gui_add_lert. cbn [lerts set_lerts].
    rewrite length_app. cbn [length]. rewrite Nat.add_1_r.
    cbn [Nat.ltb Nat.leb].
    replace (S (length (lerts s)) - 1) with (length (lerts s)) by lia.
    rewrite take_app_length. by destruct s.
Qed.

Lemma sim4_remove_takes_the_last_vehicle_witness :
  sim4.gui_remove_lert
    (set_current_time 10
       (quiet_sim [Lert_init 0 1; set_trip 50 (Lert_init 1 1)]))
  = set_current_time 10 (quiet_sim [Lert_init 0 1]).
Proof.
  exact (proj1 (sim4_remove_takes_the_last_vehicle module_globals
                  (set_current_time 10
                     (quiet_sim [Lert_init 0 1; set_trip 50 (Lert_init 1 1)])))
           [Lert_init 0 1] (set_trip 50 (Lert_init 1 1)) eq_refl).
Defined.

(** ** A rate or a speed of zero *)

Lemma pydiv_zero (a b : Q) : (b == 0)%Q → pydiv a b = Raise ZeroDivisionError.
Proof.
  intros Hb. unfold pydiv. by rewrite (proj2 (Qeq_bool_iff b 0) Hb).
Qed.

(** With a request rate of 0 (the setters accept it) the step that
    processes the pending arrival raises [ZeroDivisionError], in the
    Poisson mode and in the fixed-interval mode alike: the next gap,
    [1 / rate], cannot be computed. *)
Theorem run_step_raises_on_zero_rate (g : globals) (d : draws)
    (s : MetroSimulation) (t : Q) (rq : option nat) (q : list event) :
  (REQUEST_RATE g == 0)%Q →
  heappop (event_queue s) = Ok ((t, arrival, rq), q) →
  run_step g d s = Raise ZeroDivisionError.
Proof.
  intros Hrate Hpop. unfold run_step.
  destruct (event_queue s) as [|e0 q0] eqn:Hq; [done|].
  rewrite Hpop. rbind.
  unfold handle_arrival_event, schedule_next_request_arrival.
  rewrite (pydiv_zero _ _ Hrate). by destruct (POISSON_REQUESTS g).
Qed.

Lemma run_step_raises_on_zero_rate_witness :
  ∃ g s log,
    (st ← start 1; run_calls [call_set_request_rate 0] st)
    = Ok (g, s, log) ∧
    run_step g half_radius s = Raise ZeroDivisionError.
Proof.
  eexists _, _, _. split; [vm_compute; reflexivity|].
  eapply run_step_raises_on_zero_rate; [reflexivity|].
  vm_compute. reflexivity.
Defined.

(** With a free vehicle of speed 0 (the setters accept it) and a request
    pending, the dispatch pass raises [ZeroDivisionError]. *)
Theorem handle_requests_raises_on_zero_speed (s : MetroSimulation)
    (i li : nat) (r : Request) (l : Lert) :
  requests s !! i = Some r → assigned r = false →
  find_available_lert s = Some (li, l) → (speed l == 0)%Q →
  handle_requests s = Raise ZeroDivisionError.
Proof.
  intros Hr Ha Hfind Hv. unfold handle_requests.
  assert (Hin : i ∈ sort_by_key (request_time s) (unassigned_requests s)).
  { rewrite sort_by_key_perm. apply unassigned_requests_elem.
    unfold is_unassigned. by rewrite Hr, Ha. }
  destruct (sort_by_key _ _) as [|x rest] eqn:Hsort;
    [by apply elem_of_nil in Hin|].
  assert (Hx : is_unassigned s x = true).
  { apply unassigned_requests_elem.
    rewrite <- (sort_by_key_perm (request_time s)), Hsort. by left. }
  unfold is_unassigned in Hx.
  destruct (requests s !! x) as [rx|] eqn:Hrx; [|done].
  cbn [handle_requests_loop]. rewrite Hfind. unfold dispatch.
  rewrite (proj2 (getitem_Ok _ _ _) Hrx). rbind.
  unfold assign. cbn [speed set_status]. by rewrite (pydiv_zero _ _ Hv).
Qed.

Lemma handle_requests_raises_on_zero_speed_witness :
  handle_requests
    (set_requests [Request_init 0 1.5 to_station]
       (quiet_sim [Lert_init 0 0]))
  = Raise ZeroDivisionError.
Proof.
  apply (handle_requests_raises_on_zero_speed _ 0 0
           (Request_init 0 1.5 to_station) (Lert_init 0 0));
    reflexivity.
Defined.

(** ** What [heapq] can raise *)

Section heapq_raises.
Context {A : Type} (lt : A → A → result bool) (E : exn → Prop).
Hypothesis lt_raises : ∀ a b e, lt a b = Raise e → E e.

Lemma siftdown_loop_raises (n : nat) : ∀ (h : list A) pos x e,
  pos < length h →
  heapq.siftdown_loop lt n h 0 pos x = Raise e → E e.
Proof.
  induction n as [|n IH]; intros h pos x e Hlen Hrun; [done|].
  rewrite siftdown_loop_S in Hrun.
  destruct (0 <? pos) eqn:Hpos; [|done].
  apply Nat.ltb_lt in Hpos. pose proof (parent_lt pos Hpos).
  destruct (getitem_lt h (parent pos)) as (par & Hg & _); [lia|].
  rewrite Hg in Hrun. rbind in Hrun.
  destruct (lt x par) as [[|]|e'] eqn:Hlt; rbind in Hrun; [|done|].
  - apply IH in Hrun; [done|]. rewrite length_insert. lia.
  - injection Hrun as <-. by eapply lt_raises.
Qed.

Lemma siftdown_raises (h : list A) (pos : nat) (e : exn) :
  pos < length h → heapq._siftdown lt h 0 pos = Raise e → E e.
Proof.
  intros Hlen Hrun. unfold heapq._siftdown in Hrun.
  destruct (getitem_lt h pos) as (x & Hg & _); [done|].
  rewrite Hg in Hrun. rbind in Hrun.
  destruct (heapq.siftdown_loop lt pos h 0 pos x) as [[h1 p1]|e'] eqn:Hl;
    rbind in Hrun; [done|].
  injection Hrun as <-. by eapply siftdown_loop_raises.
Qed.

Lemma siftup_choice (h : list A) (pos : nat) :
  2 * pos + 1 < length h →
  (∃ c, (if 2 * pos + 1 + 1 <? length h
         then l ← getitem h (2 * pos + 1);
              r ← getitem h (2 * pos + 1 + 1);
              b ← lt l r;
              Ok (if negb b then 2 * pos + 1 + 1 else 2 * pos + 1)
         else Ok (2 * pos + 1)) = Ok c ∧ c < length h) ∨
  (∃ e, (if 2 * pos + 1 + 1 <? length h
         then l ← getitem h (2 * pos + 1);
              r ← getitem h (2 * pos + 1 + 1);
              b ← lt l r;
              Ok (if negb b then 2 * pos + 1 + 1 else 2 * pos + 1)
         else Ok (2 * pos + 1)) = Raise e ∧ E e).
Proof.
  intros Hc. destruct (2 * pos + 1 + 1 <? length h) eqn:Hr; [|by left; eauto].
  apply Nat.ltb_lt in Hr.
  destruct (getitem_lt h (2 * pos + 1)) as (l & -> & _); [done|].
  destruct (getitem_lt h (2 * pos + 1 + 1)) as (r & -> & _); [done|].
  rbind. destruct (lt l r) as [b|e] eqn:Hlt; rbind.
  - left. eexists. split; [done|]. by destruct b.
  - right. exists e. split; [done|]. by eapply lt_raises.
Qed.

Lemma siftup_loop_raises (n : nat) : ∀ (h : list A) pos,
  pos < length h →
  (∀ e, heapq.siftup_loop lt n h (length h) pos = Raise e → E e) ∧
  (∀ h' pos', heapq.siftup_loop lt n h (length h) pos = Ok (h', pos') →
              pos' < length h').
Proof.
  induction n as [|n IH]; intros h pos Hlen.
  { split; [done|]. by intros h' pos' [= <- <-]. }
  rewrite siftup_loop_S.
  destruct (2 * pos + 1 <? length h) eqn:Hc;
    [|split; [done|by intros h' pos' [= <- <-]]].
  apply Nat.ltb_lt in Hc.
  destruct (siftup_choice h pos Hc) as [(c & -> & Hcl)|(e & -> & He)].
  - rbind. destruct (getitem_lt h c) as (x & -> & _); [done|]. rbind.
    rewrite <- (length_insert h pos x). apply IH.
    by rewrite length_insert.
  - rbind. split; [by intros e' [= <-]|done].
Qed.

Lemma siftup_raises (h : list A) (e : exn) :
  0 < length h → heapq._siftup lt h 0 = Raise e → E e.
Proof.
  intros Hlen Hrun. unfold heapq._siftup in Hrun.
  destruct (getitem_lt h 0) as (x & Hg & _); [done|].
  rewrite Hg in Hrun. rbind in Hrun.
  destruct (siftup_loop_raises (length h) h 0 Hlen) as [Hraise Hok].
  destruct (heapq.siftup_loop lt (length h) h (length h) 0)
    as [[h1 p1]|e'] eqn:Hl; rbind in Hrun.
  - apply siftdown_raises in Hrun; [done|].
    rewrite length_insert. by apply Hok.
  - injection Hrun as <-. by apply Hraise.
Qed.

Lemma heappush_raises (h : list A) (x : A) (e : exn) :
  heapq.heappush lt h x = Raise e → E e.
Proof.
  unfold heapq.heappush. apply siftdown_raises.
  rewrite length_app. cbn. lia.
Qed.

Lemma heappop_raises (h : list A) (e : exn) :
  h ≠ [] → heapq.heappop lt h = Raise e → E e.
Proof.
  intros Hne Hrun. unfold heapq.heappop in Hrun.
  destruct (last h) as [lastelt|] eqn:Hlast; [|by apply last_None in Hlast].
  apply last_Some in Hlast as [h0 ->].
  rewrite (proj2 (list_pop_Ok _ h0 lastelt) eq_refl) in Hrun. rbind in Hrun.
  destruct h0 as [|r t]; [done|].
  cbn [getitem lookup list_lookup] in Hrun. rbind in Hrun.
  destruct (heapq._siftup lt (<[0:=lastelt]> (r :: t)) 0) as [h'|e'] eqn:Hup;
    rbind in Hrun; [done|].
  injection Hrun as <-. apply siftup_raises in Hup; [done|]. cbn. lia.
Qed.

End heapq_raises.

Lemma event_lt_raises (a b : event) (e : exn) :
  event_lt a b = Raise e → e = TypeError.
Proof.
  unfold event_lt. destruct (negb _); [done|]. destruct (negb _); [done|].
  destruct (ev_request a) as [i|], (ev_request b) as [j|];
    try destruct (i =? j); by intros [= <-].
Qed.

(** The queue operations raise nothing but the [TypeError] of a
    comparison of two events: [heappush] on any queue, [heappop] on any
    queue that is not empty; on the empty queue [heappop] raises
    [IndexError]. *)
Theorem queue_raises_only_TypeError (q : list event) :
  (∀ ev e, heappush q ev = Raise e → e = TypeError) ∧
  (q ≠ [] → ∀ e, heappop q = Raise e → e = TypeError) ∧
  heappop [] = Raise IndexError.
Proof.
  split; [|split; [|done]].
  - intros ev e. apply (heappush_raises event_lt (λ e, e = TypeError)).
    apply event_lt_raises.
  - intros Hne e. apply (heappop_raises event_lt (λ e, e = TypeError));
      [apply event_lt_raises | done].
Qed.

Lemma queue_raises_only_TypeError_witness :
  heappush [(5%Q, complete, Some 0)] (5%Q, complete, Some 1)
  = Raise TypeError.
Proof.
  destruct (heappush [(5%Q, complete, Some 0)] (5%Q, complete, Some 1))
    as [q|e] eqn:H; [vm_compute in H; discriminate|].
  f_equal.
  exact (proj1 (queue_raises_only_TypeError [(5%Q, complete, Some 0)])
           _ _ H).
Defined.

(** ** The exceptions of a run with positive settings *)







(** ** What the statistics average *)

Lemma sum_Q_snoc (l : list Q) (x : Q) : (sum_Q (l ++ [x]) == sum_Q l + x)%Q.
Proof.
  induction l as [|y l IH]; cbn; [lra|]. unfold sum_Q in IH. rewrite IH. lra.
Qed.

Lemma omap_ext_in {A B : Type} (f g : A → option B) (l : list A) :
  (∀ x, x ∈ l → f x = g x) → omap f l = omap g l.
Proof.
  intros H. apply list_omap_ext. induction l as [|x l IH]; constructor.
  - apply H. by left.
  - apply IH. intros y Hy. apply H. by right.
Qed.

Lemma completion_request (s : MetroSimulation) (log : list event)
    (e : event) :
  book_inv s log → e ∈ event_queue s ++ log → ev_type e = complete →
  ∃ i r, ev_request e = Some i ∧ requests s !! i = Some r ∧
         assigned r = true ∧
         is_Some (wait_end r) ∧ is_Some (travel_time r).
Proof.
  intros (Hshape & _ & _ & _ & _ & Hper) He Hty.
  pose proof (proj1 (Forall_forall _ _) Hshape e He) as Hs.
  unfold ev_shape in Hs. rewrite Hty in Hs. destruct Hs as (i & Hi & Hlt).
  destruct (lookup_lt_is_Some_2 _ _ Hlt) as [r Hr].
  exists i, r. split; [done|]. split; [done|].
  specialize (Hper i r Hr). destruct (assigned r).
  - by destruct Hper as (? & ? & _).
  - destruct Hper as [H1 H2]. exfalso.
    apply elem_of_app in He as [He|He].
    + by apply (proj1 (refs_to_zero i _) H1 e He).
    + by apply (proj1 (refs_to_zero i _) H2 e He).
Qed.

Lemma completed_ext (s s' : MetroSimulation) (log : list event) :
  book_inv s log →
  (∀ j r, requests s !! j = Some r → assigned r = true →
          requests s' !! j = Some r) →
  completed s' log = completed s log.
Proof.
  intros Hbook Hkeep. unfold completed. apply omap_ext_in.
  intros e He. apply list_elem_of_filter in He as [Hty He].
  destruct (completion_request s log e Hbook) as (i & r & Hi & Hr & Ha & _);
    [apply elem_of_app; by right|done|].
  unfold request_of. rewrite Hi, Hr. by apply Hkeep.
Qed.

Lemma handle_requests_loop_totals (l : list nat) : ∀ s s',
  handle_requests_loop l s = Ok s' →
  total_wait_time s' = total_wait_time s ∧
  total_travel_time s' = total_travel_time s.
Proof.
  induction l as [|i l IH]; intros s s' Hrun.
  - by injection Hrun as <-.
  - cbn [handle_requests_loop] in Hrun.
    destruct (find_available_lert s) as [[li v]|];
      [|by injection Hrun as <-].
    apply bind_Ok in Hrun as (s1 & Hd & Hrun).
    apply dispatch_Ok in Hd as (r & d & q & _ & _ & ->).
    by apply IH in Hrun.
Qed.

Lemma handle_requests_keeps_assigned (s s' : MetroSimulation) :
  handle_requests s = Ok s' →
  ∀ j r, requests s !! j = Some r → assigned r = true →
         requests s' !! j = Some r.
Proof.
  intros Hrun j r Hr Ha. unfold handle_requests in Hrun.
  apply handle_requests_loop_prefix in Hrun
    as (_ & l1 & l2 & Hl & _ & _ & Hsame).
  rewrite Hsame; [done|]. intros Hin.
  assert (Hj : j ∈ sort_by_key (request_time s) (unassigned_requests s)).
  { rewrite Hl. apply elem_of_app. by left. }
  rewrite sort_by_key_perm in Hj. apply unassigned_requests_elem in Hj.
  unfold is_unassigned in Hj. rewrite Hr, Ha in Hj. done.
Qed.

Lemma run_step_totals (g : globals) (d : draws) (s s' : MetroSimulation)
    (log : list event) :
  book_inv s log → totals_inv s log → run_step g d s = Ok s' →
  totals_inv s' (log ++ processed (call_run_step d) s).
Proof.
  intros Hbook [Hw Ht] Hrun. unfold run_step in Hrun. cbn [processed].
  destruct (event_queue s) as [|e0 q0] eqn:Hq.
  { injection Hrun as <-. cbn. by rewrite app_nil_r. }
  rewrite <- Hq in Hrun.
  apply bind_Ok in Hrun as ([ev q'] & Hpop & Hrun).
  apply heappop_perm in Hpop as [Hperm Hhead].
  rewrite Hq in Hhead. cbn in Hhead. injection Hhead as ->.
  change (option_list (head (ev :: q0))) with [ev].
  assert (Hev : ev ∈ event_queue s ++ log).
  { rewrite Hq. apply elem_of_app. left. by left. }
  destruct ev as [[t ty] rq].
  apply bind_Ok in Hrun as (s2 & Hstep & Hrun).
  pose proof (handle_requests_keeps_assigned _ _ Hrun) as Hkeep.
  unfold handle_requests in Hrun.
  apply handle_requests_loop_totals in Hrun as [Hw' Ht'].
  unfold totals_inv. rewrite Hw', Ht'.
  destruct ty.
  - apply handle_arrival_Ok in Hstep as (req & gap & q2 & _ & _ & ->).
    cbn [total_wait_time total_travel_time set_event_queue set_requests
         set_current_time requests] in *.
    assert (Hc : completed s' (log ++ [(t, arrival, rq)]) = completed s log).
    { unfold completed at 1, completions. rewrite filter_app.
      rewrite (filter_cons_False _ _ []) by by cbn. rewrite filter_nil, app_nil_r.
      apply (completed_ext s s' log Hbook).
      intros j r Hr Ha. apply Hkeep; [|done].
      by apply lookup_app_l_Some. }
    by rewrite Hc.
  - destruct (completion_request s log _ Hbook Hev eq_refl)
      as (i & r & Hi & Hr & Ha & [we Hwe] & [trav Htrav]).
    cbn in Hi. subst rq.
    unfold handle_complete_event in Hstep.
    cbn [requests set_current_time set_event_queue] in Hstep.
    rewrite (proj2 (getitem_Ok _ _ _) Hr) in Hstep. rbind in Hstep.
    rewrite Hwe, Htrav in Hstep. injection Hstep as <-.
    cbn [total_wait_time total_travel_time set_event_queue set_stats
         set_current_time requests] in *.
    assert (Hc : completed s' (log ++ [(t, complete, Some i)])
                 = completed s log ++ [r]).
    { unfold completed at 1, completions. rewrite filter_app, omap_app.
      rewrite (filter_cons_True _ _ []) by by cbn. rewrite filter_nil.
      change (omap (request_of (requests s')) [(t, complete, Some i)])
        with (match requests s' !! i with Some r0 => [r0] | None => [] end).
      rewrite (Hkeep i r Hr Ha). f_equal.
      by apply (completed_ext s s' log Hbook). }
    rewrite Hc, !fmap_app.
    change (wait_time_of <$> [r]) with [wait_time_of r].
    change (travel_time_of <$> [r]) with [travel_time_of r].
    rewrite !sum_Q_snoc.
    unfold wait_time_of at 2, travel_time_of at 2.
    rewrite Hwe, Htrav, Hw, Ht. by cbn [default].
Qed.

Lemma do_call_totals (c : call) (g g' : globals) (s s' : MetroSimulation)
    (log : list event) (o : option output) :
  book_inv s log → totals_inv s log → do_call c g s = Ok (g', s', o) →
  totals_inv s' (log ++ processed c s).
Proof.
  intros Hbook Hinv Hrun. destruct c as [d| | |r|v]; cbn in Hrun.
  - apply bind_Ok in Hrun as (s1 & Hstep & [= _ <- _]).
    by eapply run_step_totals.
  - apply bind_Ok in Hrun as ([s1 o1] & Hadd & [= _ <- _]).
    cbn [processed]. rewrite app_nil_r. unfold add_lert in Hadd.
    by apply bind_Ok in Hadd as (first & _ & [= <- _]).
  - cbn [processed]. rewrite app_nil_r. unfold remove_lert in Hrun.
    destruct (idle_lerts s) as [|i rest]; [by injection Hrun as _ <- _|].
    destruct (lerts s !! i); by injection Hrun as _ <- _.
  - injection Hrun as _ <- _. cbn [processed]. by rewrite app_nil_r.
  - injection Hrun as _ <- _. cbn [processed]. by rewrite app_nil_r.
Qed.

Lemma run_calls_totals (cs : list call) : ∀ g s log g' s' log',
  book_inv s log → totals_inv s log →
  run_calls cs (g, s, log) = Ok (g', s', log') →
  totals_inv s' log'.
Proof.
  induction cs as [|c cs IH]; intros g s log g' s' log' Hbook Hinv Hrun.
  - by injection Hrun as _ <- <-.
  - cbn [run_calls] in Hrun.
    apply bind_Ok in Hrun as ([[g1 s1] o] & Hdo & Hrun).
    pose proof (do_call_book c g g1 s s1 log o Hbook Hdo) as Hbook1.
    apply (do_call_totals c g g1 s s1 log) in Hdo; [|done..].
    by eapply IH.
Qed.

Lemma run_totals (e0 : Q) (cs : list call) (g : globals)
    (s : MetroSimulation) (log : list event) :
  (st ← start e0; run_calls cs st) = Ok (g, s, log) → totals_inv s log.
Proof.
  intros Hrun.
  apply bind_Ok in Hrun as ([[g0 s0] log0] & Hstart & Hrun).
  unfold start in Hstart.
  apply bind_Ok in Hstart as (s1 & Hinit & [= <- <- <-]).
  pose proof (init_book _ _ _ Hinit) as Hbook1.
  eapply run_calls_totals; [exact Hbook1| |exact Hrun].
  unfold MetroSimulation_init in Hinit.
  apply schedule_Ok in Hinit as (gap & q & -> & _). by cbn.
Qed.

Lemma sum_Q_nonneg (l : list Q) : Forall (λ x, (0 <= x)%Q) l → (0 <= sum_Q l)%Q.
Proof.
  induction 1 as [|x l Hx _ IH]; cbn; [lra|]. unfold sum_Q in IH. lra.
Qed.

Lemma mean_nonneg (a : Q) (n : nat) :
  (0 <= a)%Q → (0 <= a / inject_Z (Z.of_nat n))%Q.
Proof.
  intros Ha. unfold Qdiv. apply Qmult_le_0_compat; [done|].
  apply Qinv_le_0_compat. unfold Qle. cbn. lia.
Qed.

(** What [get_stats] averages.  In every state of a run from a fresh
    simulation, each completion processed carries a request that was
    assigned and has its service recorded; [completed_requests] counts
    them; [total_wait_time] and [total_travel_time] are the sums of
    [wait_end - wait_start] and of [travel_time] over them; and the two
    averages [get_stats] returns are these sums divided by their number,
    or zero when there is none. *)
Theorem averages_are_over_the_completed_requests (e0 : Q) (cs : list call)
    (g : globals) (s : MetroSimulation) (log : list event) :
  (st ← start e0; run_calls cs st) = Ok (g, s, log) →
  length (completed s log) = completed_requests s ∧
  Forall (λ r, assigned r = true ∧ is_Some (wait_end r) ∧
               is_Some (travel_time r)) (completed s log) ∧
  (total_wait_time s == sum_Q (wait_time_of <$> completed s log))%Q ∧
  (total_travel_time s == sum_Q (travel_time_of <$> completed s log))%Q ∧
  ∃ st, get_stats s = Ok st ∧
    (completed s log = [] →
     avg_wait_time st = 0%Q ∧ avg_travel_time st = 0%Q) ∧
    (completed s log ≠ [] →
     (avg_wait_time st
      == sum_Q (wait_time_of <$> completed s log)
         / inject_Z (Z.of_nat (length (completed s log))))%Q ∧
     (avg_travel_time st
      == sum_Q (travel_time_of <$> completed s log)
         / inject_Z (Z.of_nat (length (completed s log))))%Q).
Proof.
  intros Hrun. pose proof (run_book _ _ _ _ _ Hrun) as Hbook.
  pose proof (run_totals _ _ _ _ _ Hrun) as Htot.
  assert (Hall : ∀ e, e ∈ completions log →
            ∃ r, request_of (requests s) e = Some r ∧ assigned r = true ∧
                 is_Some (wait_end r) ∧ is_Some (travel_time r)).
  { intros e He. apply list_elem_of_filter in He as [Hty He].
    destruct (completion_request s log e Hbook)
      as (i & r & Hi & Hr & Hrest); [apply elem_of_app; by right|done|].
    exists r. split; [|done]. unfold request_of. by rewrite Hi. }
  assert (Hlen : length (completed s log) = completed_requests s ∧
                 Forall (λ r, assigned r = true ∧ is_Some (wait_end r) ∧
                              is_Some (travel_time r)) (completed s log)).
  { destruct Hbook as (_ & _ & _ & <- & _). unfold completed, count_type.
    fold (completions log).
    induction (completions log) as [|e l IH]; [by split|].
    destruct (Hall e) as (r & Hr & Hok); [by left|].
    destruct IH as [IH1 IH2]; [intros e' He'; apply Hall; by right|].
    cbn [omap list_omap]. rewrite Hr. cbn. split; [by rewrite IH1|].
    by constructor. }
  destruct Hlen as [Hlen Hforall], Htot as [Hw Ht].
  split; [done|]. split; [done|]. split; [done|]. split; [done|].
  destruct (get_stats_Ok s) as (st & Hst & _ & _ & _ & Hzero & Hpos).
  exists st. split; [done|]. split.
  - intros Hnil. apply Hzero. by rewrite <- Hlen, Hnil.
  - intros Hne. rewrite Hlen.
    destruct Hpos as [-> ->].
    { rewrite <- Hlen. destruct (completed s log); [done|cbn; lia]. }
    by rewrite Hw, Ht.
Qed.

Lemma averages_are_over_the_completed_requests_witness :
  ∃ g s log r st,
    (st ← start 1;
     run_calls [call_run_step half_radius; call_run_step at_station;
                call_run_step at_station] st) = Ok (g, s, log) ∧
    completed s log = [r] ∧ get_stats s = Ok st ∧
    (avg_wait_time st == wait_time_of r)%Q.
Proof.
  destruct (st ← start 1;
            run_calls [call_run_step half_radius; call_run_step at_station;
                       call_run_step at_station] st)
    as [[[g s] log]|err] eqn:Hrun; [|vm_compute in Hrun; discriminate].
  destruct (averages_are_over_the_completed_requests 1 _ g s log Hrun)
    as (_ & _ & _ & _ & st & Hst & _ & Hpos).
  assert (Hc : ∃ r, completed s log = [r]).
  { vm_compute in Hrun. injection Hrun as <- <- <-. eexists.
    vm_compute. reflexivity. }
  destruct Hc as [r Hc]. exists g, s, log, r, st.
  split; [reflexivity|]. split; [exact Hc|]. split; [exact Hst|].
  rewrite Hc in Hpos. destruct Hpos as [Hw _]; [done|].
  rewrite Hw. cbn. field.
Defined.

(** As long as the rates and speeds that are set are positive and the
    random samples are in range, the totals of the waiting and travel
    times are never negative, and neither are the averages [get_stats]
    returns. *)
Theorem positive_settings_give_nonnegative_averages (e0 : Q)
    (cs : list call) (g : globals) (s : MetroSimulation)
    (log : list event) :
  (0 <= e0)%Q → Forall positive_call cs →
  (st ← start e0; run_calls cs st) = Ok (g, s, log) →
  (0 <= total_wait_time s)%Q ∧ (0 <= total_travel_time s)%Q ∧
  ∃ st, get_stats s = Ok st ∧
        (0 <= avg_wait_time st)%Q ∧ (0 <= avg_travel_time st)%Q.
Proof.
  intros He Hcs Hrun.
  pose proof (run_totals _ _ _ _ _ Hrun) as [Hw Ht].
  assert (Hinv : sim_inv g s log).
  { apply bind_Ok in Hrun as ([[g0 s0] log0] & Hstart & Hrun).
    apply start_inv in Hstart; [|done]. cbn in Hstart.
    by eapply run_calls_inv. }
  destruct Hinv as (_ & _ & _ & _ & _ & Hreq & _).
  assert (Hall : Forall (λ r, (0 <= wait_time_of r)%Q ∧
                              (0 <= travel_time_of r)%Q) (completed s log)).
  { apply Forall_forall. intros r Hr. unfold completed in Hr.
    apply list_elem_of_omap in Hr as (e & He' & Hr).
    apply list_elem_of_filter in He' as [_ He'].
    unfold request_of in Hr. destruct (ev_request e) as [i|] eqn:Hi; [|done].
    destruct (Hreq i r Hr) as (Hws & _ & _ & Hrefs).
    unfold wait_time_of, travel_time_of. destruct (assigned r).
    - destruct Hrefs as (we & trav & -> & -> & Hle & Htr & _).
      cbn [default]. rewrite Hws. split; [lra|exact Htr].
    - destruct Hrefs as [_ Hlog]. exfalso.
      by apply (proj1 (refs_to_zero i log) Hlog e He'). }
  assert (Hw0 : (0 <= total_wait_time s)%Q).
  { rewrite Hw. apply sum_Q_nonneg, Forall_fmap.
    eapply Forall_impl; [exact Hall|]. by intros r [? _]. }
  assert (Ht0 : (0 <= total_travel_time s)%Q).
  { rewrite Ht. apply sum_Q_nonneg, Forall_fmap.
    eapply Forall_impl; [exact Hall|]. by intros r [_ ?]. }
  split; [done|]. split; [done|].
  destruct (get_stats_Ok s) as (st & Hst & _ & _ & _ & Hzero & Hpos).
  exists st. split; [done|].
  destruct (completed_requests s) as [|n] eqn:Hn.
  - destruct Hzero as [-> ->]; [done|]. split; lra.
  - destruct Hpos as [-> ->]; [lia|]. split; by apply mean_nonneg.
Qed.

Lemma positive_settings_give_nonnegative_averages_witness :
  ∃ g s log st,
    (st ← start 1;
     run_calls [call_run_step half_radius; call_set_speed 30;
                call_run_step at_station; call_run_step at_station] st)
    = Ok (g, s, log) ∧
    get_stats s = Ok st ∧ stats_completed_requests st = 1 ∧
    (0 <= avg_wait_time st)%Q ∧ (0 <= avg_travel_time st)%Q.
Proof.
  destruct (st ← start 1;
            run_calls [call_run_step half_radius; call_set_speed 30;
                       call_run_step at_station; call_run_step at_station]
                      st)
    as [[[g s] log]|err] eqn:Hrun; [|vm_compute in Hrun; discriminate].
  destruct (positive_settings_give_nonnegative_averages 1
              [call_run_step half_radius; call_set_speed 30;
               call_run_step at_station; call_run_step at_station] g s log
              ltac:(vm_compute; discriminate)
              ltac:(repeat constructor; vm_compute; congruence)
              Hrun)
    as (_ & _ & st & Hst & Hw & Ht).
  exists g, s, log, st. split; [exact Hrun|]. split; [exact Hst|].
  split; [|by split].
  vm_compute in Hrun. injection Hrun as <- <- <-.
  vm_compute in Hst. by injection Hst as <-.
Defined.
